(** * humtemplogger: a shallow embedding of [humtemplogger.py]

    The program polls DHT22 humidity/temperature sensors, keeps the samples
    of each sensor in three lists, and appends averaged rows to one CSV file
    per sensor.  The embedding follows the source class by class:

    - [Sensor]  (class [Sensor]): one driver object plus the last reading
      and the sticky error flag;
    - [Logger]  (class [Logger]): one sensor, the three sample lists and the
      file attribute [f];
    - [main]    (function [main]): argument handling and the two nested
      counting loops.

    Python floats are binary64 values ([PrimFloat.float], with the
    specification of its operations in [SpecFloat] and [FloatAxioms]);
    strings are those of code points below 256; attributes that may hold
    [None] are options; exceptions are an explicit [result] type; the
    outside world (files, standard output, clock, sensor hardware) is a
    record threaded through the stateful operations.

    What lies outside the program is taken as follows.  The driver signals
    a failed read by [RuntimeError] and by nothing else.  [open] fails or
    succeeds as the environment decides; once a file is open, [os.stat],
    [write] and [flush] succeed.  The text of a file is what has been
    written to it through the file object open on it, buffered or
    flushed: the header [Logger.__init__] writes is flushed only by the
    first [log_data], so the text is what the file system shows after
    each [log_data], and in between as long as no second file object is
    opened on the same path ([os.stat] through a second one would not see
    a header still in the buffer of the first).  Standard output takes
    every string.  [eval] of a pin name between 0 and 27 and the
    construction of the driver succeed. *)

From Stdlib Require Import ZArith QArith Qpower Qabs List Lia Lqa Bool Ascii String.
From Stdlib Require Import Floats.PrimFloat Floats.SpecFloat Floats.FloatOps Floats.FloatAxioms.
From Stdlib Require Import Uint63.
From stdpp Require Import gmap strings list pretty.

Set Warnings "-inexact-float".

Local Open Scope Z_scope.
Local Open Scope string_scope.

(** ** Python exceptions and fallible computations *)

Inductive exn : Type :=
| RuntimeError (msg : string)
| InvalidPinError (message : string)
| ValueError (msg : string)
| UnboundLocalError (name : string)
| AttributeError (attr : string)
| TypeError (msg : string)
| StatisticsError (msg : string).

Inductive result (A : Type) : Type :=
| Ok (a : A)
| Raise (e : exn).
Arguments Ok {A} a.
Arguments Raise {A} e.

Definition bind {A B : Type} (r : result A) (k : A -> result B) : result B :=
  match r with
  | Ok a => k a
  | Raise e => Raise e
  end.

Notation "x <- r ;; k" := (bind r (fun x => k))
  (at level 100, r at next level, right associativity).

(** ** Floats

    [statistics.mean] adds its data exactly (as fractions) and rounds the
    quotient once.  A finite binary64 value is [m * 2^e]; the exact sum of
    such values is again of that shape. *)

Definition dyadic : Type := Z * Z.

Definition exact_ratio (x : float) : option dyadic :=
  match Prim2SF x with
  | S754_zero _ => Some (0, 0)
  | S754_finite s m e => Some (if s then Z.neg m else Z.pos m, e)
  | S754_infinity _ | S754_nan => None
  end.

Definition dyadic_add (a b : dyadic) : dyadic :=
  let e := Z.min (snd a) (snd b) in
  (fst a * 2 ^ (snd a - e) + fst b * 2 ^ (snd b - e), e).

Definition exact_sum (l : list dyadic) : dyadic :=
  fold_left dyadic_add l (0, 0).

(** The rational value of a dyadic number, for stating what [exact_sum]
    computes. *)
Definition dyadic_Q (a : dyadic) : Q :=
  (inject_Z (fst a) * Qpower 2 (snd a))%Q.

(** [m * 2^e / n] rounded to the nearest binary64 value, ties to even. *)
Definition round_quotient (m e : Z) (n : positive) : float :=
  match m with
  | Z0 => zero
  | Zpos p =>
      let '(q, e', l) := SFdiv_core_binary prec emax (Zpos p) e (Zpos n) 0 in
      SF2Prim (binary_round_aux prec emax false q e' l)
  | Zneg p =>
      let '(q, e', l) := SFdiv_core_binary prec emax (Zpos p) e (Zpos n) 0 in
      SF2Prim (binary_round_aux prec emax true q e' l)
  end.

Definition float_of_nat (n : nat) : float :=
  of_uint63 (Uint63.of_Z (Z.of_nat n)).

Definition is_finite (x : float) : bool :=
  match exact_ratio x with Some _ => true | None => false end.

(** The mean of a non-empty list of floats as [statistics.mean] returns it:
    the correctly rounded exact mean when every value is finite; otherwise
    the float sum of the infinite and NaN values divided by the count. *)
Definition float_mean (xs : list float) : float :=
  match mapM exact_ratio xs with
  | Some ds =>
      let t := exact_sum ds in
      round_quotient (fst t) (snd t) (Pos.of_nat (length xs))
  | None =>
      (fold_left PrimFloat.add (filter (fun x => is_finite x = false) xs) zero
       / float_of_nat (length xs))%float
  end.

(** Sample lists may in principle hold [None]; [mean] then raises
    [TypeError], and it raises [StatisticsError] on no data. *)
Definition mean (data : list (option float)) : result float :=
  match mapM id data with
  | None => Raise (TypeError "can't convert type 'NoneType' to numerator/denominator")
  | Some [] => Raise (StatisticsError "mean requires at least one data point")
  | Some xs => Ok (float_mean xs)
  end.

(** Truth value of a float-or-None attribute: [None] and zero are false. *)
Definition truthy (v : option float) : bool :=
  match v with
  | None => false
  | Some x => negb (PrimFloat.eqb x zero)
  end.

(** ** Strings, [repr] and [int(str)]

    A Python string is modelled by its code points, one [ascii] each: the
    model has exactly the strings whose code points are all below 256.
    On these, [int] (Python 3.11) drops surrounding white space (code
    points 9 to 13, 32, 133 and 160), allows one sign, and then wants
    decimal digits, single underscores allowed between digits; below 256
    the decimal digits are the ASCII ones.  A literal of more than 4300
    digits is refused, and so is anything else, both with [ValueError]. *)

Definition is_space (c : ascii) : bool :=
  let n := nat_of_ascii c in
  ((9 <=? n) && (n <=? 13))%nat || (n =? 32)%nat || (n =? 133)%nat || (n =? 160)%nat.

Definition digit_value (c : ascii) : option Z :=
  let n := nat_of_ascii c in
  if ((48 <=? n) && (n <=? 57))%nat then Some (Z.of_nat n - 48) else None.

Definition is_digit (c : ascii) : bool :=
  match digit_value c with Some _ => true | None => false end.

Fixpoint lstrip (s : string) : string :=
  match s with
  | String c s' => if is_space c then lstrip s' else s
  | EmptyString => EmptyString
  end.

Definition strip (s : string) : string :=
  String.rev (lstrip (String.rev (lstrip s))).

(** [after_digit] records whether the previous character was a digit: an
    underscore may only follow a digit, and the literal may not end on
    one. *)
Fixpoint parse_digits (acc : Z) (after_digit : bool) (s : string) : option Z :=
  match s with
  | EmptyString => if after_digit then Some acc else None
  | String c s' =>
      match digit_value c with
      | Some d => parse_digits (10 * acc + d) true s'
      | None =>
          if Ascii.eqb c "_" && after_digit then parse_digits acc false s'
          else None
      end
  end.

(** The literal without white space around it and without its sign. *)
Definition unsigned (s : string) : bool * string :=
  match strip s with
  | String "-" s' => (true, s')
  | String "+" s' => (false, s')
  | s' => (false, s')
  end.

(** The digits and underscores a literal starts with, and what follows
    them. *)
Fixpoint leading_run (s : string) : string * string :=
  match s with
  | String c s' =>
      if is_digit c || Ascii.eqb c "_" then
        let '(run, rest) := leading_run s' in (String c run, rest)
      else (EmptyString, s)
  | EmptyString => (EmptyString, EmptyString)
  end.

Fixpoint count_digits (s : string) : Z :=
  match s with
  | String c s' => (if is_digit c then 1 else 0) + count_digits s'
  | EmptyString => 0
  end.

(** [sys.get_int_max_str_digits()] *)
Definition max_str_digits : Z := 4300.

(** [int] reads the run of digits first: a run that is malformed is no
    literal; a well-formed run that is too long is refused for its length,
    whatever follows it; otherwise nothing may follow. *)
Inductive scanned : Type :=
| Number (n : Z)
| TooLong (digits : Z)
| NotANumber.

Definition scan_int (s : string) : scanned :=
  let '(negative, body) := unsigned s in
  let '(run, rest) := leading_run body in
  match parse_digits 0 false run with
  | None => NotANumber
  | Some n =>
      if (max_str_digits <? count_digits run)%Z then TooLong (count_digits run)
      else
        match rest with
        | EmptyString => Number (if negative then - n else n)
        | String _ _ => NotANumber
        end
  end.

Definition parse_int (s : string) : option Z :=
  match scan_int s with
  | Number n => Some n
  | TooLong _ | NotANumber => None
  end.

(** [repr] of a string, for code points below 256.  The quote is the
    single one unless the string has single quotes and no double one;
    backslash and the quote are escaped, tab, newline and return have
    their letters, and the other code points that are not printable (0 to
    31, 127 to 160 and 173) are written in hexadecimal. *)
Definition backslash : ascii := "092"%char.
Definition single_quote : ascii := "039"%char.
Definition double_quote : ascii := "034"%char.

Fixpoint contains (c : ascii) (s : string) : bool :=
  match s with
  | String d s' => Ascii.eqb c d || contains c s'
  | EmptyString => false
  end.

Definition hex_digit (n : nat) : ascii :=
  match String.get n "0123456789abcdef" with
  | Some c => c
  | None => "0"%char
  end.

Definition printable (c : ascii) : bool :=
  let n := nat_of_ascii c in
  negb ((n <? 32)%nat || ((127 <=? n) && (n <=? 160))%nat || (n =? 173)%nat).

Definition escaped (quote c : ascii) : string :=
  let n := nat_of_ascii c in
  if Ascii.eqb c quote || Ascii.eqb c backslash then String backslash (String c EmptyString)
  else if (n =? 9)%nat then String backslash "t"
  else if (n =? 10)%nat then String backslash "n"
  else if (n =? 13)%nat then String backslash "r"
  else if printable c then String c EmptyString
  else String backslash
         (String "x" (String (hex_digit (n / 16)) (String (hex_digit (n mod 16)) EmptyString))).

Fixpoint escape_all (quote : ascii) (s : string) : string :=
  match s with
  | String c s' => escaped quote c ++ escape_all quote s'
  | EmptyString => EmptyString
  end.

Definition repr (s : string) : string :=
  let quote :=
    if contains single_quote s && negb (contains double_quote s) then double_quote
    else single_quote in
  String quote (escape_all quote s ++ String quote EmptyString).

(** The message of the [ValueError] that [int] raises; [%.200R] cuts the
    [repr] after 200 characters. *)
Definition int_error (s : string) : string :=
  match scan_int s with
  | TooLong digits =>
      "Exceeds the limit (4300 digits) for integer string conversion: value has "
      ++ pretty digits ++ " digits; use sys.set_int_max_str_digits() to increase the limit"
  | Number _ | NotANumber =>
      "invalid literal for int() with base 10: " ++ String.substring 0 200 (repr s)
  end.

Definition int (s : string) : result Z :=
  match parse_int s with
  | Some n => Ok n
  | None => Raise (ValueError (int_error s))
  end.

(** ** The sensor driver ([adafruit_dht.DHT22])

    The driver is not part of the program.  What the program sees of it is
    that reading the [temperature] or the [humidity] property either
    yields a float or raises [RuntimeError].  The hardware is a script of
    such results, consumed one per property read; a script that has run
    out answers like an unplugged sensor. *)

Inductive access : Type :=
| Val (x : float)
| Err (msg : string).

Module DHT22.

Record t : Type := { script : list access }.

Definition read_property (d : t) : access * t :=
  match script d with
  | [] => (Err "DHT sensor not found, check wiring", d)
  | a :: rest => (a, {| script := rest |})
  end.

Definition temperature : t -> access * t := read_property.
Definition humidity : t -> access * t := read_property.

End DHT22.

(** The outcome of one [poll] as the hardware script spells it. *)
Inductive outcome : Type :=
| Reading (t h : float)
| FailTemperature (msg : string)
| FailHumidity (t : float) (msg : string).

Definition accesses (o : outcome) : list access :=
  match o with
  | Reading t h => [Val t; Val h]
  | FailTemperature msg => [Err msg]
  | FailHumidity t msg => [Val t; Err msg]
  end.


Definition failure (o : outcome) : option string :=
  match o with
  | Reading _ _ => None
  | FailTemperature msg | FailHumidity _ msg => Some msg
  end.

(** ** class Sensor *)

Module Sensor.

Record t : Type := {
  pin : Z;
  sensor : DHT22.t;
  devID : string;
  temp : option float;
  humidity : option float;
  error : bool;
  error_message : option string
}.

Definition set_driver (d : DHT22.t) (self : t) : t :=
  {| pin := pin self; sensor := d; devID := devID self;
     temp := temp self; humidity := humidity self;
     error := error self; error_message := error_message self |}.

Definition set_temp (v : option float) (self : t) : t :=
  {| pin := pin self; sensor := sensor self; devID := devID self;
     temp := v; humidity := humidity self;
     error := error self; error_message := error_message self |}.

Definition set_humidity (v : option float) (self : t) : t :=
  {| pin := pin self; sensor := sensor self; devID := devID self;
     temp := temp self; humidity := v;
     error := error self; error_message := error_message self |}.

(** The [except RuntimeError as err] branch of [poll]. *)
Definition poll_failed (err : string) (self : t) : t :=
  {| pin := pin self; sensor := sensor self; devID := devID self;
     temp := None; humidity := None;
     error := true; error_message := Some err |}.

Definition poll (self : t) : t :=
  match DHT22.temperature (sensor self) with
  | (Val x, d1) =>
      let self := set_temp (Some x) (set_driver d1 self) in
      match DHT22.humidity d1 with
      | (Val y, d2) => set_humidity (Some y) (set_driver d2 self)
      | (Err err, d2) => poll_failed err (set_driver d2 self)
      end
  | (Err err, d1) => poll_failed err (set_driver d1 self)
  end.

(** [__init__(self, gpio, devID=None)].  [eval] of the pin name and the
    construction of the driver belong to the platform; [hardware] says
    what the sensor on a pin will answer.  The attributes [temp] and
    [humidity] do not exist before the first [poll], which sets both,
    so their initial [None] is never read. *)
Definition __init__ (hardware : Z -> list access)
    (gpio : string) (devID : option string) : result t :=
  gpio <- int gpio ;;
  if ((0 <=? gpio) && (gpio <=? 27))%Z then
    let pin_name := "board.D" ++ pretty gpio in
    Ok (poll {| pin := gpio;
                sensor := {| DHT22.script := hardware gpio |};
                devID := match devID with None => pin_name | Some d => d end;
                temp := None; humidity := None;
                error := false; error_message := None |})
  else Raise (InvalidPinError "Invalid pin number.  Must be between 0 and 27").

Definition get_tempf (self : t) : option float :=
  if truthy (temp self) then
    (fun x => x * (9 / 5) + 32)%float <$> temp self
  else temp self.

Definition get_tempc (self : t) : option float := temp self.

Definition get_humidity (self : t) : option float := humidity self.

Definition get_error (self : t) : option string * t :=
  (error_message self,
   {| pin := pin self; sensor := sensor self; devID := devID self;
      temp := temp self; humidity := humidity self;
      error := false; error_message := None |}).

End Sensor.

(** ** The outside world

    A text handed to [write] or built by an f-string is kept as its
    pieces, so that the floats and the clock readings in it stay visible
    instead of being rendered to characters. *)

Inductive piece : Type :=
| Lit (s : string)
| Num (x : float)
| Strftime (format : string) (now : nat).

Definition text : Type := list piece.

(** [hardware] and [openable] are fixed by the environment; the program
    changes [files] (the non-empty texts written to each file, oldest
    first, through the file object open on it), [stdout] and, by
    sleeping, [clock]. *)
Record World : Type := {
  hardware : Z -> list access;
  openable : string -> bool;
  files : gmap string (list text);
  stdout : list string;
  clock : nat
}.

Definition set_files (fs : gmap string (list text)) (w : World) : World :=
  {| hardware := hardware w; openable := openable w; files := fs;
     stdout := stdout w; clock := clock w |}.

Definition CR : string := String "013" EmptyString.
Definition LF : string := String "010" EmptyString.
Definition CRLF : string := CR ++ LF.

(** [print(s, end=e)] *)
Definition print_end (s e : string) (w : World) : World :=
  {| hardware := hardware w; openable := openable w; files := files w;
     stdout := (stdout w ++ [(s ++ e)%string])%list; clock := clock w |}.

Definition print (s : string) : World -> World := print_end s LF.

(** [time.sleep(secs)] *)
Definition sleep (secs : nat) (w : World) : World :=
  {| hardware := hardware w; openable := openable w; files := files w;
     stdout := stdout w; clock := (clock w + secs)%nat |}.

Definition contents (path : string) (w : World) : list text :=
  default [] (files w !! path).

(** [f.write(s)] on a file opened for appending. *)
Definition write (path : string) (s : text) (w : World) : World :=
  set_files (<[path := (contents path w ++ [s])%list]> (files w)) w.

(** ** class Logger *)

Module Logger.

(** [error_message] starts as the empty string and later holds what
    [get_error] returned. *)
Inductive stored_error : Type :=
| Empty
| Taken (err : option string).

(** [f] is the open file, known by its path; [None] when the attribute
    was never assigned. *)
Record t : Type := {
  sensor : Sensor.t;
  datafile : string;
  tempc : list (option float);
  tempf : list (option float);
  humidity : list (option float);
  error_message : stored_error;
  f : option string
}.

Definition header : text :=
  [Lit ("Device ID, Date, Time, Temperature C, Temperature F, Humidity, Errors" ++ CRLF)].

Definition st_size_is_zero (path : string) (w : World) : bool :=
  match contents path w with [] => true | _ :: _ => false end.

(** The header goes to the text of the file when that is empty.  In the
    source it stays in the buffer of [self.f] until the first [log_data]
    flushes, so [st_size_is_zero] is what [os.stat] answers provided no
    other [Logger] holds the same path open with its header unflushed. *)
Definition __init__ (sensor : Sensor.t) (logfile : string) (w : World) : t * World :=
  let self (file : option string) :=
    {| sensor := sensor; datafile := logfile;
       tempc := []; tempf := []; humidity := [];
       error_message := Empty; f := file |} in
  if openable w logfile then
    (* open(logfile, 'a+') creates the file when it is missing *)
    let w1 := set_files (<[logfile := contents logfile w]> (files w)) w in
    (self (Some logfile),
     if st_size_is_zero logfile w1 then write logfile header w1 else w1)
  else
    (* except: pass *)
    (self None, w).

Definition __del__ (self : t) : result unit :=
  match f self with
  | Some _ => Ok tt
  | None => Raise (AttributeError "f")
  end.

Definition read_sensor (self : t) : t :=
  let s := Sensor.poll (sensor self) in
  if negb (Sensor.error s) then
    {| sensor := s; datafile := datafile self;
       tempc := (tempc self ++ [Sensor.get_tempc s])%list;
       tempf := (tempf self ++ [Sensor.get_tempf s])%list;
       humidity := (humidity self ++ [Sensor.get_humidity s])%list;
       error_message := error_message self; f := f self |}
  else
    let '(err, s') := Sensor.get_error s in
    {| sensor := s'; datafile := datafile self;
       tempc := tempc self; tempf := tempf self; humidity := humidity self;
       error_message := Taken err; f := f self |}.

Definition average_samples (samples : list (option float)) : result float :=
  if (0 <? length samples)%nat then mean samples else Ok nan.

(** The f-string of [log_data]. *)
Definition row (devID : string) (now : nat) (tempc tempf humidity : float) : text :=
  [Lit devID; Lit ", "; Strftime "%m/%d/%y" now; Lit ", ";
   Strftime "%H:%M:%S" now; Lit ", "; Num tempc; Lit ", "; Num tempf;
   Lit ", "; Num humidity; Lit ("%" ++ CRLF)].

(** [log_data] assigns no attribute of [self]; the logger it returns is
    the one it was given.  [self.f] is looked up before the f-string is
    built; [flush] adds nothing to what [write] did. *)
Definition log_data (self : t) (w : World) : result (t * World) :=
  tempc <- average_samples (tempc self) ;;
  tempf <- average_samples (tempf self) ;;
  humidity <- average_samples (humidity self) ;;
  match f self with
  | None => Raise (AttributeError "f")
  | Some path =>
      Ok (self, write path (row (Sensor.devID (sensor self)) (clock w) tempc tempf humidity) w)
  end.

End Logger.

(** ** main

    The body of [main] both changes the world and may raise, so it runs
    in a small monad: a world in, a result and a world out. *)

Definition M (A : Type) : Type := World -> result A * World.

Definition ret {A : Type} (a : A) : M A := fun w => (Ok a, w).

Definition raise {A : Type} (e : exn) : M A := fun w => (Raise e, w).

Definition bindM {A B : Type} (m : M A) (k : A -> M B) : M B :=
  fun w =>
    match m w with
    | (Ok a, w') => k a w'
    | (Raise e, w') => (Raise e, w')
    end.

Definition act (step : World -> World) : M unit := fun w => (Ok tt, step w).

Notation "x <<- m ;; k" := (bindM m (fun x => k))
  (at level 100, m at next level, right associativity).
Notation "m ;;; k" := (bindM m (fun _ => k))
  (at level 100, right associativity).

(** The local variables of [main] that are read before every path has
    assigned them.  Reading an unassigned local raises
    [UnboundLocalError]. *)
Record locals : Type := {
  logfile : option string;
  sen : option Sensor.t
}.

Definition unassigned : locals := {| logfile := None; sen := None |}.

Definition load {A : Type} (name : string) (v : option A) : M A :=
  match v with
  | Some a => ret a
  | None => raise (UnboundLocalError name)
  end.

Definition logfile_name (logfile_prefix : string) (s : Sensor.t) : string :=
  logfile_prefix ++ "_" ++ Sensor.devID s ++ ".csv".

(** [for i in range(2, len(args))] with its [try] block; [pins] is
    [args[2:]]. *)
Fixpoint construct (logfile_prefix : string) (pins : list string)
    (vars : locals) (loggers : list Logger.t) : M (locals * list Logger.t) :=
  match pins with
  | [] => ret (vars, loggers)
  | arg :: rest => fun w =>
      match Sensor.__init__ (hardware w) arg None with
      | Ok s =>
          let name := logfile_name logfile_prefix s in
          let '(logger, w') := Logger.__init__ s name w in
          construct logfile_prefix rest
            {| logfile := Some name; sen := Some s |}
            (loggers ++ [logger])%list w'
      | Raise (InvalidPinError message) =>
          construct logfile_prefix rest vars loggers
            (print ("skipping pin #" ++ arg) (print message w))
      | Raise e => (Raise e, w)
      end
  end.

(** [for logger in loggers: logger.log_data()] *)
Fixpoint log_all (loggers : list Logger.t) : M (list Logger.t) :=
  match loggers with
  | [] => ret []
  | logger :: rest => fun w =>
      match Logger.log_data logger w with
      | Ok (logger', w') =>
          bindM (log_all rest) (fun rest' => ret (logger' :: rest')) w'
      | Raise e => (Raise e, w)
      end
  end.

Definition progress (readings samples : nat) : string :=
  "reading:  " ++ pretty readings ++ ", sample #" ++ pretty samples ++ "   " ++ CR.

(** The inner [while samples > 0] loop, counting [samples] down. *)
Fixpoint sample_loop (readings samples : nat) (loggers : list Logger.t)
    (w : World) : list Logger.t * World :=
  match samples with
  | O => (loggers, w)
  | S samples' =>
      let loggers := map Logger.read_sensor loggers in
      let w := print_end (progress readings samples) "" w in
      sample_loop readings samples' loggers (sleep 1 w)
  end.

(** The outer [while readings > 0] loop, counting [readings] down;
    [samples] is the value the inner counter is reset to (10 in [main]). *)
Fixpoint reading_loop (samples readings : nat) (loggers : list Logger.t)
    : M (list Logger.t) :=
  match readings with
  | O => ret loggers
  | S readings' => fun w =>
      let '(loggers, w) := sample_loop readings samples loggers w in
      bindM (log_all loggers) (reading_loop samples readings') w
  end.

Definition help_requested (args : list string) : bool :=
  match args with
  | _ :: a :: _ => String.eqb a "--help" || String.eqb a "-h"
  | _ => false
  end.

(** The body of [main(args)] with the two counts it hard-codes
    ([samples = 10], [readings = 5]) as parameters; the result is the exit
    status. *)
Definition main_with (samples readings : nat) (args : list string) : M Z :=
  if help_requested args then
    act (print "humtemplogger ussage:  humtemplogger [datafile_prefix [pin numbers...]]") ;;;
    act (print "example:  humtemplogger beehive_1 4 17") ;;;
    ret 0
  else
    let vars := unassigned in
    logfile_prefix <<-
      (if (1 <? length args)%nat then ret (nth 1 args "")
       else
         let logfile_prefix := "humtemp" in
         shown <<- load "logfile" (logfile vars) ;;
         act (print ("no data file specified, using default value:  " ++ shown)) ;;;
         ret logfile_prefix) ;;
    built <<-
      (if (2 <? length args)%nat then
         construct logfile_prefix (drop 2 args) vars []
       else
         act (print "no gpio data pins specified, using default value:  4") ;;;
         s <<- load "sen" (sen vars) ;;
         let name := logfile_name logfile_prefix s in
         fun w =>
           let '(logger, w') := Logger.__init__ s name w in
           ret ({| logfile := Some name; sen := sen vars |}, [logger]) w') ;;
    _ <<- reading_loop samples readings (snd built) ;;
    (* [del logger] only unbinds the loop variable *)
    ret 0.

Definition main : list string -> M Z := main_with 10 5.

(** * Specifications

    ** Vocabulary *)

(** What the next [poll] of a driver will meet: the two property reads of
    [Sensor.poll] in its order. *)
Definition upcoming (d : DHT22.t) : outcome :=
  match DHT22.temperature d with
  | (Val x, d1) =>
      match DHT22.humidity d1 with
      | (Val y, _) => Reading x y
      | (Err msg, _) => FailHumidity x msg
      end
  | (Err msg, _) => FailTemperature msg
  end.

(** The Fahrenheit value [get_tempf] reports for a Celsius float. *)
Definition fahrenheit (c : float) : float :=
  if PrimFloat.eqb c zero then c else (c * (9 / 5) + 32)%float.

(** [n] calls of [read_sensor], one per tick. *)
Fixpoint ticks (n : nat) (self : Logger.t) : Logger.t :=
  match n with
  | O => self
  | S n' => ticks n' (Logger.read_sensor self)
  end.

(** The readings among a list of poll outcomes, in order. *)
Fixpoint readings (os : list outcome) : list (float * float) :=
  match os with
  | [] => []
  | Reading x y :: os' => (x, y) :: readings os'
  | _ :: os' => readings os'
  end.

(** The samples one tick adds for a poll outcome. *)
Definition sampled (o : outcome) : list (float * float) := readings [o].

(** The mean as [average_samples] reports it for a window of floats. *)
Definition average (xs : list float) : float :=
  match xs with
  | [] => nan
  | _ :: _ => float_mean xs
  end.

Definition sumQ (qs : list Q) : Q := fold_right Qplus 0%Q qs.

(** The arithmetic mean of rational numbers. *)
Definition arithmetic_mean (qs : list Q) : Q :=
  (sumQ qs / inject_Z (Z.of_nat (length qs)))%Q.

(** The rational number a float stands for: [(-1)^s * m * 2^e] for a
    finite one; zeros, infinities and NaN count as 0. *)
Definition SF_Q (f : spec_float) : Q :=
  match f with
  | S754_finite s m e => (inject_Z (if s then Zneg m else Zpos m) * Qpower 2 e)%Q
  | S754_zero _ | S754_infinity _ | S754_nan => 0%Q
  end.

Definition float_Q (x : float) : Q := SF_Q (Prim2SF x).

(** The unit in the last place of a float: [2^e] for the finite
    [m * 2^e], and the smallest positive float for zero. *)
Definition SF_ulp (f : spec_float) : Q :=
  match f with
  | S754_finite _ _ e => Qpower 2 e
  | S754_zero _ | S754_infinity _ | S754_nan => Qpower 2 emin
  end.

Definition unit_in_last_place (x : float) : Q := SF_ulp (Prim2SF x).

(** The largest finite float, [(2^53 - 1) * 2^971]. *)
Definition max_float_Q : Q := (inject_Z (2 ^ 53 - 1) * Qpower 2 (emax - prec))%Q.

(** [locates a b mrs]: the mantissa of [mrs] is the integer part of
    [a / b], and its two bits say where the remainder lies in the
    interval: round bit for the upper half, sticky bit for anywhere but
    the start and the middle. *)
Definition locates (a b : Z) (mrs : shr_record) : Prop :=
  0 < b /\ 0 <= shr_m mrs /\
  0 <= a - shr_m mrs * b < b /\
  (shr_r mrs = true <-> b <= 2 * (a - shr_m mrs * b)) /\
  (shr_s mrs = true <-> a - shr_m mrs * b <> 0 /\ 2 * (a - shr_m mrs * b) <> b).

(** The second half of [binary_round_aux]: renormalise the rounded
    mantissa and detect overflow. *)
Definition round_tail (sx : bool) (m1 E : Z) : spec_float :=
  let '(mrs'', e'') := shr_fexp prec emax m1 E loc_Exact in
  match shr_m mrs'' with
  | Z0 => S754_zero sx
  | Zpos m => if (e'' <=? emax - prec)%Z then S754_finite sx m e'' else S754_infinity sx
  | Zneg _ => S754_nan
  end.

(** Pin arguments by what [Sensor.__init__] makes of them. *)
Definition in_range (gpio : Z) : bool := ((0 <=? gpio) && (gpio <=? 27))%Z.

Definition out_of_range (arg : string) : bool :=
  match parse_int arg with
  | Some gpio => negb (in_range gpio)
  | None => false
  end.

Definition invalid_pin_message : string :=
  "Invalid pin number.  Must be between 0 and 27".

Definition invalid_literal (arg : string) : exn := ValueError (int_error arg).

(** The two lines [main] prints for each pin it skips. *)
Definition skip_report (pins : list string) : list string :=
  pins ≫= (fun arg => [invalid_pin_message ++ LF; "skipping pin #" ++ arg ++ LF]).

(** ** Scenarios

    Concrete hardware and worlds used where a statement is checked on an
    explicit input. *)

Definition checksum_error : string := "Checksum did not validate. Try again.".

(** The hardware script that makes the polls of a sensor meet [os]. *)
Definition wired (os : list outcome) : list access := concat (accesses <$> os).

(** A world whose only sensor sits on pin 4, with no files yet. *)
Definition bench (os : list outcome) (can_open : bool) : World :=
  {| hardware := fun pin => if (pin =? 4)%Z then wired os else [];
     openable := fun _ => can_open;
     files := ∅; stdout := []; clock := 0 |}.

(** The first poll (the one of [Sensor.__init__]) fails, the next one
    succeeds. *)
Definition flaky_start : list outcome :=
  [FailTemperature checksum_error; Reading 20 50; Reading 22 55].

Definition cycle1 : list outcome :=
  [Reading 20 50; FailTemperature checksum_error; Reading 22 55].

Definition cycle2 : list outcome :=
  [FailTemperature checksum_error; FailTemperature checksum_error;
   FailTemperature checksum_error].

(** A sensor on pin 4 with no failure pending, about to meet [os]. *)
Definition settled_sensor (os : list outcome) : Sensor.t :=
  {| Sensor.pin := 4; Sensor.sensor := {| DHT22.script := wired os |};
     Sensor.devID := "board.D4";
     Sensor.temp := Some 19.5%float; Sensor.humidity := Some 48%float;
     Sensor.error := false; Sensor.error_message := None |}.

(** A logger with an empty window and its file open. *)
Definition fresh_logger (os : list outcome) : Logger.t :=
  {| Logger.sensor := settled_sensor os;
     Logger.datafile := "hive_board.D4.csv";
     Logger.tempc := []; Logger.tempf := []; Logger.humidity := [];
     Logger.error_message := Logger.Empty;
     Logger.f := Some "hive_board.D4.csv" |}.


Definition log_of_pin_4 : string := "humtemp_board.D4.csv".

(** ** Vocabulary of the further properties *)

(** The window of a logger read as one list of samples: the Celsius list,
    the Fahrenheit list and the humidity list are the three views of it. *)
Definition holds (self : Logger.t) (samples : list (float * float)) : Prop :=
  Logger.tempc self = Some <$> samples.*1 /\
  Logger.tempf self = Some <$> (fahrenheit <$> samples.*1) /\
  Logger.humidity self = Some <$> samples.*2.

(** The pin number [Sensor.__init__] accepts an argument for, if any. *)
Definition accepted (arg : string) : option Z :=
  match parse_int arg with
  | Some gpio => if in_range gpio then Some gpio else None
  | None => None
  end.

(** The arguments [int] converts: integer literals of at most 4300
    digits. *)
Definition is_integer (arg : string) : bool :=
  match parse_int arg with Some _ => true | None => false end.

(** The log file [main] gives the sensor on pin [gpio]. *)
Definition log_of (logfile_prefix : string) (gpio : Z) : string :=
  logfile_prefix ++ "_" ++ ("board.D" ++ pretty gpio) ++ ".csv".

(** The messages of the failed polls among a list of outcomes. *)
Definition failures (os : list outcome) : list string := omap failure os.

(** What a run may do to the world: leave the environment alone, let time
    pass, print more, and append to files. *)
Definition grown (w w' : World) : Prop :=
  hardware w' = hardware w /\ openable w' = openable w /\
  (clock w <= clock w')%nat /\
  stdout w `prefix_of` stdout w' /\
  forall path : string, contents path w `prefix_of` contents path w'.

(** A computation of [main] that only ever lets the world grow. *)
Definition growing {A : Type} (m : M A) : Prop := forall w : World, grown w (snd (m w)).

(** A logger that [log_data] can serve: its file is open and its window
    is the three views of some list of samples. *)
Definition ready (self : Logger.t) : Prop :=
  is_Some (Logger.f self) /\ exists samples, holds self samples.

(** A file after a logger was constructed on it. *)
Definition with_header (c : list text) : list text :=
  match c with
  | [] => [Logger.header]
  | _ :: _ => c
  end.

(** The log files of the pins [main] accepts among its pin arguments. *)
Definition logs_of (logfile_prefix : string) (pins : list string) : list string :=
  log_of logfile_prefix <$> omap accepted pins.

(** How many of the loggers write to [path]. *)
Definition writers (path : string) (loggers : list Logger.t) : nat :=
  length (filter (fun l => Logger.f l = Some path) loggers).

(** A logger as [main] has it when the poll of [Sensor.__init__] failed:
    empty window, file open, the failure still pending. *)
Definition pending_logger : Logger.t :=
  {| Logger.sensor :=
       {| Sensor.pin := 4;
          Sensor.sensor := {| DHT22.script := wired [Reading 20 50; Reading 22 55] |};
          Sensor.devID := "board.D4";
          Sensor.temp := None; Sensor.humidity := None;
          Sensor.error := true; Sensor.error_message := Some checksum_error |};
     Logger.datafile := "hive_board.D4.csv";
     Logger.tempc := []; Logger.tempf := []; Logger.humidity := [];
     Logger.error_message := Logger.Empty;
     Logger.f := Some "hive_board.D4.csv" |}.

(** ** The driver script *)

Lemma upcoming_accesses (o : outcome) (rest : list access) :
  upcoming {| DHT22.script := (accesses o ++ rest)%list |} = o.
Proof. destruct o; reflexivity. Qed.


(** ** Sensor.poll *)

Section Poll.

Variable self : Sensor.t.

Lemma poll_reading (x y : float) :
  upcoming (Sensor.sensor self) = Reading x y ->
  Sensor.temp (Sensor.poll self) = Some x /\
  Sensor.humidity (Sensor.poll self) = Some y /\
  Sensor.error (Sensor.poll self) = Sensor.error self /\
  Sensor.error_message (Sensor.poll self) = Sensor.error_message self.
Proof.
  unfold upcoming, Sensor.poll.
  destruct (DHT22.temperature (Sensor.sensor self)) as [[x'|m] d1]; [|discriminate].
  destruct (DHT22.humidity d1) as [[y'|m] d2]; [|discriminate].
  intros [= -> ->]. repeat split.
Qed.

Lemma poll_failure (msg : string) :
  failure (upcoming (Sensor.sensor self)) = Some msg ->
  Sensor.temp (Sensor.poll self) = None /\
  Sensor.humidity (Sensor.poll self) = None /\
  Sensor.error (Sensor.poll self) = true /\
  Sensor.error_message (Sensor.poll self) = Some msg.
Proof.
  unfold upcoming, Sensor.poll.
  destruct (DHT22.temperature (Sensor.sensor self)) as [[x'|m] d1].
  - destruct (DHT22.humidity d1) as [[y'|m] d2]; [discriminate|].
    intros [= ->]. repeat split.
  - intros [= ->]. repeat split.
Qed.

Lemma poll_keeps_identity :
  Sensor.devID (Sensor.poll self) = Sensor.devID self /\
  Sensor.pin (Sensor.poll self) = Sensor.pin self.
Proof.
  unfold Sensor.poll.
  destruct (DHT22.temperature (Sensor.sensor self)) as [[x'|m] d1];
    [destruct (DHT22.humidity d1) as [[y'|m] d2]|]; split; reflexivity.
Qed.

(** A poll that leaves the error flag clear has stored a reading. *)
Lemma poll_no_error_has_reading :
  Sensor.error (Sensor.poll self) = false ->
  exists x y, upcoming (Sensor.sensor self) = Reading x y.
Proof.
  destruct (upcoming (Sensor.sensor self)) as [x y|m|x m] eqn:E.
  - intros _. exists x, y. reflexivity.
  - destruct (poll_failure m) as (_ & _ & -> & _); [rewrite E; reflexivity|discriminate].
  - destruct (poll_failure m) as (_ & _ & -> & _); [rewrite E; reflexivity|discriminate].
Qed.

End Poll.

Lemma poll_script (self : Sensor.t) (o : outcome) (rest : list access) :
  DHT22.script (Sensor.sensor self) = (accesses o ++ rest)%list ->
  DHT22.script (Sensor.sensor (Sensor.poll self)) = rest /\
  upcoming (Sensor.sensor self) = o.
Proof.
  intros Hs. unfold upcoming, Sensor.poll, DHT22.temperature, DHT22.humidity,
    DHT22.read_property.
  rewrite Hs. destruct o; cbn; split; reflexivity.
Qed.

Lemma get_tempf_fahrenheit (self : Sensor.t) :
  Sensor.get_tempf self = fahrenheit <$> Sensor.temp self.
Proof.
  unfold Sensor.get_tempf, fahrenheit, truthy.
  destruct (Sensor.temp self) as [c|]; [|reflexivity].
  cbn. destruct (PrimFloat.eqb c zero); reflexivity.
Qed.

(** ** Claims about [Sensor] *)

(** C10: after every [poll] the stored temperature and humidity are either
    both the values of that successful read or, when either property read
    raised, both [None]; [get_tempc], [get_humidity] (and [get_tempf])
    then return [None] whatever an earlier poll had stored. *)
Theorem poll_stores_reading_or_clears (self : Sensor.t) :
  match upcoming (Sensor.sensor self) with
  | Reading x y =>
      Sensor.get_tempc (Sensor.poll self) = Some x /\
      Sensor.get_humidity (Sensor.poll self) = Some y
  | FailTemperature _ | FailHumidity _ _ =>
      Sensor.get_tempc (Sensor.poll self) = None /\
      Sensor.get_humidity (Sensor.poll self) = None /\
      Sensor.get_tempf (Sensor.poll self) = None
  end.
Proof.
  destruct (upcoming (Sensor.sensor self)) as [x y|m|x m] eqn:E.
  - destruct (poll_reading self x y E) as (Ht & Hh & _). split; assumption.
  - destruct (poll_failure self m) as (Ht & Hh & _); [rewrite E; reflexivity|].
    rewrite get_tempf_fahrenheit. unfold Sensor.get_tempc, Sensor.get_humidity.
    rewrite Ht, Hh. repeat split.
  - destruct (poll_failure self m) as (Ht & Hh & _); [rewrite E; reflexivity|].
    rewrite get_tempf_fahrenheit. unfold Sensor.get_tempc, Sensor.get_humidity.
    rewrite Ht, Hh. repeat split.
Qed.

(** C3, as the claim states it, fails: a sensor whose first poll failed and
    whose next poll succeeds still hands out the old failure when
    [get_error] is called right after the successful poll. *)
Lemma get_error_after_successful_poll_counterexample :
  exists s : Sensor.t,
    Sensor.__init__ (fun _ => wired flaky_start) "4" None = Ok s /\
    Sensor.get_tempc (Sensor.poll s) = Some 20%float /\
    fst (Sensor.get_error (Sensor.poll s)) = Some checksum_error /\
    fst (Sensor.get_error (Sensor.poll s)) <> None.
Proof.
  eexists. split; [reflexivity|]. repeat split. discriminate.
Qed.

(** C3, amended: [get_error] called right after a failed [poll] returns
    that failure's detail, and a second call in a row returns [None]; a
    successful [poll] leaves a recorded failure in place, so [get_error]
    called right after it returns whatever was pending, which is [None]
    only when nothing was. *)
Theorem get_error_after_poll (self : Sensor.t) :
  fst (Sensor.get_error (Sensor.poll self)) =
    match failure (upcoming (Sensor.sensor self)) with
    | Some msg => Some msg
    | None => Sensor.error_message self
    end /\
  fst (Sensor.get_error (snd (Sensor.get_error (Sensor.poll self)))) = None /\
  Sensor.error (snd (Sensor.get_error (Sensor.poll self))) = false.
Proof.
  split; [|split; reflexivity].
  cbn [Sensor.get_error fst].
  destruct (upcoming (Sensor.sensor self)) as [x y|m|x m] eqn:E; cbn [failure].
  - apply (poll_reading self x y E).
  - apply (poll_failure self m). rewrite E. reflexivity.
  - apply (poll_failure self m). rewrite E. reflexivity.
Qed.

(** [get_tempf] on any temperature that is not zero. *)
Lemma get_tempf_nonzero (self : Sensor.t) (c : float) :
  Sensor.temp self = Some c ->
  PrimFloat.eqb c zero = false ->
  Sensor.get_tempf self = Some (c * (9 / 5) + 32)%float.
Proof.
  intros Hc Hz. rewrite get_tempf_fahrenheit, Hc. cbn. unfold fahrenheit.
  rewrite Hz. reflexivity.
Qed.

(** C5: at 0.0 degrees Celsius [get_tempf] takes the branch meant for
    "no reading" and reports 0.0, where [c * 9/5 + 32] is 32.0. *)
Theorem get_tempf_zero_celsius (self : Sensor.t) :
  Sensor.get_tempf (Sensor.set_temp (Some 0%float) self) = Some 0%float /\
  (0 * (9 / 5) + 32)%float = 32%float /\
  Some 0%float <> Some 32%float.
Proof.
  split; [reflexivity|]. split; [reflexivity|].
  intros H. discriminate H.
Qed.

(** ** The exact sum behind [float_mean] *)

Lemma dyadic_add_Q (a b : dyadic) :
  (dyadic_Q (dyadic_add a b) == dyadic_Q a + dyadic_Q b)%Q.
Proof.
  destruct a as [ma ea], b as [mb eb]. unfold dyadic_add, dyadic_Q. cbn [fst snd].
  set (e := Z.min ea eb).
  assert (Ha : (0 <= ea - e)%Z) by lia.
  assert (Hb : (0 <= eb - e)%Z) by lia.
  assert (H2 : ~ (2 == 0)%Q) by discriminate.
  rewrite inject_Z_plus, !inject_Z_mult, !Zpower_Qpower by assumption.
  rewrite Qmult_plus_distr_l, <- !Qmult_assoc, <- !Qpower_plus by assumption.
  replace (ea - e + e)%Z with ea by lia.
  replace (eb - e + e)%Z with eb by lia.
  reflexivity.
Qed.

Lemma fold_dyadic_add_Q (ds : list dyadic) (a : dyadic) :
  (dyadic_Q (fold_left dyadic_add ds a) == dyadic_Q a + sumQ (dyadic_Q <$> ds))%Q.
Proof.
  revert a. induction ds as [|d ds IH]; intros a; cbn.
  - rewrite Qplus_0_r. reflexivity.
  - rewrite IH, dyadic_add_Q, Qplus_assoc. reflexivity.
Qed.

Lemma exact_sum_Q (ds : list dyadic) :
  (dyadic_Q (exact_sum ds) == sumQ (dyadic_Q <$> ds))%Q.
Proof.
  unfold exact_sum. rewrite fold_dyadic_add_Q. unfold dyadic_Q at 1. cbn.
  rewrite Qmult_0_l, Qplus_0_l. reflexivity.
Qed.

(** ** Rounding the quotient

    [round_quotient] divides with [SFdiv_core_binary] and rounds with
    [binary_round_aux], the two functions that specify the division of
    binary64 floats.  This section shows what they compute on an exact
    quotient [m * 2^e / n]. *)

(** *** Binary digits *)

Lemma pow2_pred (d : Z) : 0 < d -> 2 ^ d = 2 * 2 ^ (d - 1).
Proof.
  intros Hd. replace d with (Z.succ (d - 1)) at 1 by lia.
  apply Z.pow_succ_r. lia.
Qed.

(** [digits2_pos p] is the number of binary digits of [p]. *)
Lemma digits2_pos_bounds (p : positive) :
  2 ^ (Zpos (digits2_pos p) - 1) <= Zpos p < 2 ^ Zpos (digits2_pos p).
Proof.
  induction p as [p IH|p IH|]; cbn [digits2_pos].
  - rewrite Pos2Z.inj_succ.
    replace (Z.succ (Zpos (digits2_pos p)) - 1) with (Zpos (digits2_pos p)) by lia.
    rewrite Z.pow_succ_r by lia.
    rewrite (pow2_pred (Zpos (digits2_pos p))) in * by lia. lia.
  - rewrite Pos2Z.inj_succ.
    replace (Z.succ (Zpos (digits2_pos p)) - 1) with (Zpos (digits2_pos p)) by lia.
    rewrite Z.pow_succ_r by lia.
    rewrite (pow2_pred (Zpos (digits2_pos p))) in * by lia. lia.
  - cbn. lia.
Qed.

Lemma Zdigits2_nonneg (m : Z) : 0 <= Zdigits2 m.
Proof. destruct m; cbn; lia. Qed.

Lemma Zdigits2_bounds (m : Z) :
  0 < m -> 2 ^ (Zdigits2 m - 1) <= m < 2 ^ Zdigits2 m.
Proof. destruct m as [|p|p]; try lia. intros _. apply digits2_pos_bounds. Qed.

Lemma Zdigits2_unique (m d : Z) :
  2 ^ (d - 1) <= m < 2 ^ d -> 0 < m -> Zdigits2 m = d.
Proof.
  intros [Hlo Hhi] Hm. pose proof (Zdigits2_bounds m Hm) as [Hlo' Hhi'].
  pose proof (Zdigits2_nonneg m) as Hn.
  assert (0 < d) as Hd.
  { destruct (Z_lt_le_dec 0 d); [assumption|].
    destruct (Z.eq_dec d 0) as [->|]; [cbn in Hhi; lia|].
    rewrite (Z.pow_neg_r 2 d) in Hhi by lia. lia. }
  destruct (Z_lt_le_dec (Zdigits2 m) d) as [Hlt|Hge].
  - assert (2 ^ Zdigits2 m <= 2 ^ (d - 1)) by (apply Z.pow_le_mono_r; lia). lia.
  - destruct (Z_lt_le_dec d (Zdigits2 m)) as [Hlt|Hge']; [|lia].
    assert (2 ^ d <= 2 ^ (Zdigits2 m - 1)) by (apply Z.pow_le_mono_r; lia). lia.
Qed.

Lemma Zdigits2_lower (m d : Z) : 0 <= d -> 2 ^ d <= m -> d < Zdigits2 m.
Proof.
  intros Hd Hm. assert (0 < m) as Hpos by (pose proof (Z.pow_pos_nonneg 2 d); lia).
  pose proof (Zdigits2_bounds m Hpos) as [_ Hhi].
  destruct (Z_lt_le_dec d (Zdigits2 m)); [assumption|].
  assert (2 ^ Zdigits2 m <= 2 ^ d) by (apply Z.pow_le_mono_r; lia). lia.
Qed.

(** *** Shifting right keeps track of the remainder *)

Lemma shr_1_locates (a b : Z) (mrs : shr_record) :
  locates a b mrs ->
  locates a (2 * b) (shr_1 mrs) /\ shr_m (shr_1 mrs) = shr_m mrs / 2.
Proof.
  destruct mrs as [m r s]. unfold locates. cbn [shr_m shr_r shr_s].
  intros (Hb & Hm & Hd & Hr & Hs).
  assert (Hm2 : shr_m (shr_1 {| shr_m := m; shr_r := r; shr_s := s |}) = m / 2).
  { destruct m as [|[p|p|]|p]; try lia; cbn [shr_1 shr_m]; try reflexivity.
    - change (Zpos p~1) with (2 * Zpos p + 1). apply Z.div_unique with 1; lia.
    - change (Zpos p~0) with (2 * Zpos p). apply Z.div_unique with 0; lia. }
  split; [|exact Hm2].
  destruct r;
    [assert (Hr' : b <= 2 * (a - m * b)) by (apply Hr; reflexivity)
    |assert (Hr' : ~ b <= 2 * (a - m * b)) by (intros X; apply Hr in X; discriminate)];
  (destruct s;
    [assert (Hs' : a - m * b <> 0 /\ 2 * (a - m * b) <> b) by (apply Hs; reflexivity)
    |assert (Hs' : ~ (a - m * b <> 0 /\ 2 * (a - m * b) <> b))
       by (intros X; apply Hs in X; discriminate)]);
  clear Hr Hs Hm2;
  (destruct m as [|[p|p|]|p]; try lia; cbn [shr_1 shr_m shr_r shr_s orb];
   repeat split; intros;
   first [reflexivity | discriminate | lia | exfalso; lia]).
Qed.

Lemma iter_shr_1_locates (k : positive) (a b : Z) (mrs : shr_record) :
  locates a b mrs ->
  locates a (2 ^ Zpos k * b) (SpecFloat.iter_pos shr_1 k mrs) /\
  shr_m (SpecFloat.iter_pos shr_1 k mrs) = shr_m mrs / 2 ^ Zpos k.
Proof.
  revert a b mrs. induction k as [k IH|k IH|]; intros a b mrs H; cbn [SpecFloat.iter_pos].
  - destruct (shr_1_locates a b mrs H) as [H1 E1].
    destruct (IH _ _ _ H1) as [H2 E2]. destruct (IH _ _ _ H2) as [H3 E3].
    replace (Zpos k~1) with (1 + Zpos k + Zpos k) by lia.
    rewrite !Z.pow_add_r, Z.pow_1_r by lia.
    assert (0 < 2 ^ Zpos k) by (apply Z.pow_pos_nonneg; lia).
    split.
    + replace (2 * 2 ^ Zpos k * 2 ^ Zpos k * b) with (2 ^ Zpos k * (2 ^ Zpos k * (2 * b))) by ring.
      exact H3.
    + rewrite E3, E2, E1, !Z.div_div by lia. f_equal. ring.
  - destruct (IH _ _ _ H) as [H2 E2]. destruct (IH _ _ _ H2) as [H3 E3].
    replace (Zpos k~0) with (Zpos k + Zpos k) by lia.
    rewrite !Z.pow_add_r by lia.
    assert (0 < 2 ^ Zpos k) by (apply Z.pow_pos_nonneg; lia).
    split.
    + replace (2 ^ Zpos k * 2 ^ Zpos k * b) with (2 ^ Zpos k * (2 ^ Zpos k * b)) by ring.
      exact H3.
    + rewrite E3, E2, !Z.div_div by lia. f_equal.
  - exact (shr_1_locates a b mrs H).
Qed.

Lemma shr_locates (a b : Z) (mrs : shr_record) (e n : Z) :
  locates a b mrs -> 0 <= n ->
  locates a (2 ^ n * b) (fst (shr mrs e n)) /\
  shr_m (fst (shr mrs e n)) = shr_m mrs / 2 ^ n /\
  snd (shr mrs e n) = e + n.
Proof.
  intros H Hn. destruct n as [|k|k]; [| |lia]; cbn [shr fst snd].
  - rewrite Z.mul_1_l, Z.div_1_r, Z.add_0_r. auto.
  - destruct (iter_shr_1_locates k a b mrs H). auto.
Qed.

Lemma shr_record_of_loc_m (m : Z) (l : location) : shr_m (shr_record_of_loc m l) = m.
Proof. destruct l as [|[]]; reflexivity. Qed.

Lemma Zeven_false_odd (n : Z) : Z.even n = false -> exists c, n = 2 * c + 1.
Proof.
  intros H. rewrite <- Z.negb_odd in H. apply negb_false_iff in H.
  apply Z.odd_spec in H. destruct H as [c ->]. exists c. reflexivity.
Qed.

(** The location [SFdiv_core_binary] computes from a remainder. *)
Lemma new_location_locates (q r n : Z) :
  0 < n -> 0 <= q -> 0 <= r < n ->
  locates (n * q + r) n (shr_record_of_loc q (new_location n r)).
Proof.
  intros Hn Hq Hr. unfold locates. rewrite shr_record_of_loc_m.
  replace (n * q + r - q * n) with r by ring.
  split; [exact Hn|]. split; [exact Hq|]. split; [exact Hr|].
  unfold new_location, new_location_even, new_location_odd.
  destruct (Z.even n) eqn:Ev.
  - destruct (Z.eqb_spec r 0) as [->|Hr0]; cbn.
    + repeat split; intros; first [discriminate | lia].
    + destruct (Z.compare_spec (2 * r) n); cbn;
        repeat split; intros; first [reflexivity | discriminate | lia].
  - apply Zeven_false_odd in Ev. destruct Ev as [c Hc].
    destruct (Z.eqb_spec r 0) as [->|Hr0]; cbn.
    + repeat split; intros; first [discriminate | lia].
    + destruct (Z.compare_spec (2 * r + 1) n); cbn;
        repeat split; intros; first [reflexivity | discriminate | lia].
Qed.

(** *** The integer division

    [SFdiv_core_binary] scales the numerator so that the quotient has at
    least 53 digits, unless that would take the exponent below [emin]. *)

Lemma SFdiv_core_binary_spec (p n : positive) (e : Z) :
  exists (q e' : Z) (l : location),
    SFdiv_core_binary prec emax (Zpos p) e (Zpos n) 0 = (q, e', l) /\
    e' <= e /\
    locates (Zpos p * 2 ^ (e - e')) (Zpos n) (shr_record_of_loc q l) /\
    e' <= fexp prec emax (Zdigits2 q + e').
Proof.
  unfold SFdiv_core_binary. cbn [Zdigits2].
  set (d1 := Zpos (digits2_pos p)). set (d2 := Zpos (digits2_pos n)).
  set (e' := Z.min (fexp prec emax (d1 + e - (d2 + 0))) (e - 0)).
  assert (He' : e' <= e) by (unfold e'; lia).
  set (s := e - 0 - e').
  set (m' := match s with Z.pos _ => Z.shiftl (Zpos p) s | 0 => Zpos p | Z.neg _ => 0 end).
  assert (Hm' : m' = Zpos p * 2 ^ (e - e')).
  { replace (e - e') with s by (unfold s; lia).
    assert (0 <= s) as Hs by (unfold s; lia). unfold m'.
    destruct s as [|k|k]; [cbn; lia| |lia].
    apply Z.shiftl_mul_pow2. lia. }
  pose proof (Z_div_mod m' (Zpos n) eq_refl) as Hdiv.
  destruct (Z.div_eucl m' (Zpos n)) as [q r]. destruct Hdiv as [Hq Hr].
  assert (0 < 2 ^ (e - e')) as Hpow by (apply Z.pow_pos_nonneg; lia).
  assert (0 <= q) as Hq0 by nia.
  exists q, e', (new_location (Zpos n) r).
  split; [reflexivity|]. split; [exact He'|]. split.
  - rewrite <- Hm', Hq. apply new_location_locates; lia.
  - unfold fexp. destruct (Z_le_gt_dec e' emin) as [Hle|Hgt]; [lia|].
    assert (He1 : e' <= d1 + e - d2 - prec).
    { unfold e', fexp in *. lia. }
    assert (52 < Zdigits2 q); [|unfold prec in *; lia].
    apply Zdigits2_lower; [lia|].
    pose proof (digits2_pos_bounds p) as [Hp _]. fold d1 in Hp.
    pose proof (digits2_pos_bounds n) as [_ Hn]. fold d2 in Hn.
    assert (Hs : e - e' = (d2 + 52 - (d1 - 1)) + (e - e' - (d2 + 52 - (d1 - 1)))) by ring.
    assert (0 < d1) by (unfold d1; lia). assert (0 < d2) by (unfold d2; lia).
    unfold prec in He1.
    set (t := e - e' - (d2 + 52 - (d1 - 1))) in *.
    assert (0 <= t) by (unfold t; lia).
    assert (Hpw : 2 ^ (d1 - 1) * 2 ^ (e - e') = 2 ^ d2 * 2 ^ 52 * 2 ^ t).
    { rewrite Hs, <- !Z.pow_add_r by lia. f_equal. lia. }
    assert (1 <= 2 ^ t) by (pose proof (Z.pow_pos_nonneg 2 t); lia).
    assert (0 < 2 ^ 52) by reflexivity.
    assert (0 < 2 ^ d2) by (apply Z.pow_pos_nonneg; lia).
    assert (0 < 2 ^ (d1 - 1)) by (apply Z.pow_pos_nonneg; lia).
    assert (G1 : 2 ^ d2 * 2 ^ 52 * 2 ^ t <= Zpos p * 2 ^ (e - e')) by (rewrite <- Hpw; nia).
    assert (G2 : Zpos p * 2 ^ (e - e') < (q + 1) * Zpos n) by lia.
    assert (G3 : (q + 1) * Zpos n < (q + 1) * 2 ^ d2) by nia.
    assert (G4 : 2 ^ d2 * 2 ^ 52 <= 2 ^ d2 * 2 ^ 52 * 2 ^ t) by nia.
    assert (G5 : 2 ^ d2 * 2 ^ 52 < 2 ^ d2 * (q + 1)) by lia.
    assert (2 ^ 52 < q + 1) by nia. lia.
Qed.

Lemma Zdigits2_shift (q k : Z) :
  0 <= q -> 0 <= k ->
  (q / 2 ^ k = 0 /\ Zdigits2 q <= k) \/
  (0 < q / 2 ^ k /\ Zdigits2 (q / 2 ^ k) = Zdigits2 q - k).
Proof.
  intros Hq Hk. assert (0 < 2 ^ k) as Hpk by (apply Z.pow_pos_nonneg; lia).
  destruct (Z.eq_dec q 0) as [->|Hq0].
  { left. rewrite Z.div_0_l by lia. cbn. lia. }
  pose proof (Zdigits2_bounds q ltac:(lia)) as [Hlo Hhi].
  set (D := Zdigits2 q) in *.
  destruct (Z_le_gt_dec D k) as [Hle|Hgt].
  - left. split; [|exact Hle]. apply Z.div_small.
    assert (2 ^ D <= 2 ^ k) by (apply Z.pow_le_mono_r; lia). lia.
  - right.
    assert (Hlo' : 2 ^ (D - k - 1) <= q / 2 ^ k).
    { apply Z.div_le_lower_bound; [lia|].
      rewrite <- Z.pow_add_r by lia. replace (k + (D - k - 1)) with (D - 1) by ring. exact Hlo. }
    assert (Hhi' : q / 2 ^ k < 2 ^ (D - k)).
    { apply Z.div_lt_upper_bound; [lia|].
      rewrite <- Z.pow_add_r by lia. replace (k + (D - k)) with D by ring. exact Hhi. }
    assert (0 < 2 ^ (D - k - 1)) by (apply Z.pow_pos_nonneg; lia).
    split; [lia|]. apply Zdigits2_unique; [|lia]. split; assumption.
Qed.

Lemma Zdigits2_succ (m : Z) :
  0 <= m ->
  Zdigits2 (m + 1) = Zdigits2 m \/
  (m + 1 = 2 ^ Zdigits2 m /\ Zdigits2 (m + 1) = Zdigits2 m + 1).
Proof.
  intros Hm. destruct (Z.eq_dec m 0) as [->|Hm0]; [right; split; reflexivity|].
  pose proof (Zdigits2_bounds m ltac:(lia)) as [Hlo Hhi].
  pose proof (Zdigits2_nonneg m) as Hn.
  set (D := Zdigits2 m) in *.
  destruct (Z.eq_dec (m + 1) (2 ^ D)) as [Heq|Hne].
  - right. split; [exact Heq|]. apply Zdigits2_unique; [|lia].
    replace (D + 1 - 1) with D by ring. rewrite Z.pow_add_r, Z.pow_1_r by lia. lia.
  - left. apply Zdigits2_unique; lia.
Qed.

(** Rounding to nearest moves the mantissa up only from the upper half,
    and keeps it only in the lower half. *)
Lemma round_nearest_even_spec (a b : Z) (mrs : shr_record) :
  locates a b mrs ->
  (round_nearest_even (shr_m mrs) (loc_of_shr_record mrs) = shr_m mrs /\
   2 * (a - shr_m mrs * b) <= b) \/
  (round_nearest_even (shr_m mrs) (loc_of_shr_record mrs) = shr_m mrs + 1 /\
   b <= 2 * (a - shr_m mrs * b)).
Proof.
  destruct mrs as [m r s]. unfold locates. cbn [shr_m shr_r shr_s].
  intros (Hb & Hm & Hd & Hr & Hs).
  destruct r;
    [assert (Hr' : b <= 2 * (a - m * b)) by (apply Hr; reflexivity)
    |assert (Hr' : ~ b <= 2 * (a - m * b)) by (intros X; apply Hr in X; discriminate)];
  (destruct s;
    [assert (Hs' : a - m * b <> 0 /\ 2 * (a - m * b) <> b) by (apply Hs; reflexivity)
    |assert (Hs' : ~ (a - m * b <> 0 /\ 2 * (a - m * b) <> b))
       by (intros X; apply Hs in X; discriminate)]);
  cbn [loc_of_shr_record round_nearest_even]; try destruct (Z.even m);
  first [left; split; [reflexivity|lia] | right; split; [reflexivity|lia]].
Qed.

(** *** [binary_round_aux] *)

Lemma round_tail_canonical (sx : bool) (m1 E : Z) :
  fexp prec emax (Zdigits2 m1 + E) = E ->
  round_tail sx m1 E =
    match m1 with
    | Z0 => S754_zero sx
    | Zpos m => if (E <=? emax - prec)%Z then S754_finite sx m E else S754_infinity sx
    | Zneg _ => S754_nan
    end.
Proof.
  intros H. unfold round_tail, shr_fexp. rewrite H, Z.sub_diag. reflexivity.
Qed.

Lemma round_tail_carry (sx : bool) (E : Z) :
  emin <= E ->
  round_tail sx (2 ^ 53) E =
    if (E + 1 <=? emax - prec)%Z then S754_finite sx (2 ^ 52)%positive (E + 1)
    else S754_infinity sx.
Proof.
  intros H. unfold round_tail, shr_fexp.
  change (Zdigits2 (2 ^ 53)) with 54.
  replace (fexp prec emax (54 + E) - E) with 1
    by (unfold fexp, SpecFloat.emin, prec, emax in *; lia).
  reflexivity.
Qed.

Lemma binary_round_aux_tail (sx : bool) (q e' : Z) (l : location) :
  binary_round_aux prec emax sx q e' l =
    round_tail sx
      (round_nearest_even (shr_m (fst (shr_fexp prec emax q e' l)))
         (loc_of_shr_record (fst (shr_fexp prec emax q e' l))))
      (snd (shr_fexp prec emax q e' l)).
Proof.
  unfold binary_round_aux, round_tail.
  destruct (shr_fexp prec emax q e' l) as [mrs' E]. reflexivity.
Qed.

Lemma fexp_canonical (d E : Z) :
  0 <= d -> fexp prec emax (d + E) = E -> emin <= E /\ d <= prec /\ (emin < E -> d = prec).
Proof. unfold fexp, SpecFloat.emin, prec, emax. lia. Qed.

(** The result of [binary_round_aux] on [a / n * 2^e']: it is [m1 * 2^(e' + k)]
    for an [m1] within half a unit of [a / (2^k * n)]; a finite result is
    a valid float; overflow needs a quotient of at least [2^1024 - 2^970]. *)
Lemma binary_round_aux_spec (sx : bool) (q e' : Z) (l : location) (a n : Z) :
  locates a n (shr_record_of_loc q l) ->
  e' <= fexp prec emax (Zdigits2 q + e') ->
  exists m1 k : Z,
    0 <= k /\ 0 <= m1 /\
    - (2 ^ k * n) <= 2 * (m1 * (2 ^ k * n)) - 2 * a <= 2 ^ k * n /\
    match binary_round_aux prec emax sx q e' l with
    | S754_zero s => s = sx /\ m1 = 0 /\ e' + k = emin
    | S754_finite s m e'' =>
        s = sx /\ bounded prec emax m e'' = true /\ e' + k <= e'' /\
        Zpos m * 2 ^ (e'' - (e' + k)) = m1
    | S754_infinity s =>
        emax - prec <= e' + k /\
        (2 ^ 54 - 1) * (2 ^ k * n) <= 2 * a * 2 ^ (e' + k - (emax - prec))
    | S754_nan => False
    end.
Proof.
  intros Hloc He'.
  set (k := fexp prec emax (Zdigits2 q + e') - e').
  assert (Hk : 0 <= k) by (unfold k; lia).
  rewrite binary_round_aux_tail. unfold shr_fexp at 1 2 3. fold k.
  destruct (shr_locates a n _ e' k Hloc Hk) as (HlocB & Hmk & HE).
  rewrite HE. rewrite shr_record_of_loc_m in Hmk.
  set (mrs' := fst (shr (shr_record_of_loc q l) e' k)) in *.
  set (B := 2 ^ k * n) in *. set (E := e' + k).
  assert (Hq : 0 <= q).
  { destruct Hloc as (_ & Hq & _). rewrite shr_record_of_loc_m in Hq. exact Hq. }
  assert (Hcan : fexp prec emax (Zdigits2 (shr_m mrs') + E) = E).
  { rewrite Hmk. destruct (Zdigits2_shift q k Hq Hk) as [[-> Hd]|[_ ->]].
    - cbn [Zdigits2]. unfold E, k, fexp, SpecFloat.emin, prec, emax in *. lia.
    - unfold E, k. replace (Zdigits2 q - _ + _) with (Zdigits2 q + e') by ring. ring. }
  pose proof (fexp_canonical _ _ (Zdigits2_nonneg _) Hcan) as (HEmin & Hdk & Hnormal).
  pose proof HlocB as (HB & Hmk0 & Hd & _).
  set (mk := shr_m mrs') in *.
  assert (Hbig : emin < E -> 2 ^ 52 * B <= a).
  { intros HE1. specialize (Hnormal HE1).
    destruct (Z.eq_dec mk 0) as [Hz|Hnz]; [rewrite Hz in Hnormal; discriminate|].
    pose proof (Zdigits2_bounds mk ltac:(lia)) as [Hlo _].
    rewrite Hnormal in Hlo. change (2 ^ (prec - 1)) with (2 ^ 52) in Hlo. nia. }
  assert (Hfinish : forall m1 : Z,
    0 <= m1 -> fexp prec emax (Zdigits2 m1 + E) = E ->
    - B <= 2 * (m1 * B) - 2 * a <= B ->
    exists m2 k0 : Z,
      0 <= k0 /\ 0 <= m2 /\
      - (2 ^ k0 * n) <= 2 * (m2 * (2 ^ k0 * n)) - 2 * a <= 2 ^ k0 * n /\
      match round_tail sx m1 E with
      | S754_zero s => s = sx /\ m2 = 0 /\ e' + k0 = emin
      | S754_finite s m e'' =>
          s = sx /\ bounded prec emax m e'' = true /\ e' + k0 <= e'' /\
          Zpos m * 2 ^ (e'' - (e' + k0)) = m2
      | S754_infinity s =>
          emax - prec <= e' + k0 /\
          (2 ^ 54 - 1) * (2 ^ k0 * n) <= 2 * a * 2 ^ (e' + k0 - (emax - prec))
      | S754_nan => False
      end).
  { intros m1 Hm1 Hcan1 Herr. exists m1, k. fold B. fold E.
    split; [exact Hk|]. split; [exact Hm1|]. split; [exact Herr|].
    rewrite (round_tail_canonical sx m1 E Hcan1).
    destruct m1 as [|pm|pm]; [| |lia].
    - split; [reflexivity|]. split; [reflexivity|].
      cbn [Zdigits2] in Hcan1. unfold fexp, SpecFloat.emin, prec, emax in *. lia.
    - destruct (Z.leb_spec E (emax - prec)) as [Hle|Hgt].
      + split; [reflexivity|]. split.
        * unfold bounded, canonical_mantissa. cbn [Zdigits2] in Hcan1.
          rewrite Hcan1, Z.eqb_refl. cbn. apply Z.leb_le. exact Hle.
        * split; [lia|]. rewrite Z.sub_diag. lia.
      + split; [lia|].
        assert (emin < E) as HE1 by (unfold SpecFloat.emin, prec, emax in *; lia).
        specialize (Hbig HE1).
        assert (2 ^ 1 <= 2 ^ (E - (emax - prec))) by (apply Z.pow_le_mono_r; lia).
        change (2 ^ 1) with 2 in *. change (2 ^ 54 - 1) with 18014398509481983.
        change (2 ^ 52) with 4503599627370496 in Hbig. nia. }
  destruct (round_nearest_even_spec a B mrs') as [[Hrn Hr]|[Hrn Hr]].
  { exact HlocB. }
  - fold mk in Hrn, Hr. rewrite Hrn. apply Hfinish; [exact Hmk0|exact Hcan|]. lia.
  - fold mk in Hrn, Hr. rewrite Hrn.
    destruct (Z.eq_dec (fexp prec emax (Zdigits2 (mk + 1) + E)) E) as [Hcan1|Hcarry].
    + apply Hfinish; [lia|exact Hcan1|lia].
    + destruct (Zdigits2_succ mk Hmk0) as [Hsame|[Hpow Hsucc]];
        [rewrite Hsame in Hcarry; contradiction|].
      assert (Hd53 : Zdigits2 mk = prec).
      { rewrite Hsucc in Hcarry. unfold fexp, SpecFloat.emin, prec, emax in *. lia. }
      rewrite Hd53 in Hpow. change (2 ^ prec) with (2 ^ 53) in Hpow.
      rewrite Hpow, (round_tail_carry sx E HEmin).
      exists (2 ^ 53), k. fold B. fold E.
      split; [exact Hk|]. split; [lia|]. split; [lia|].
      destruct (Z.leb_spec (E + 1) (emax - prec)) as [Hle|Hgt].
      * split; [reflexivity|]. split.
        { unfold bounded, canonical_mantissa.
          change (Z.pos (digits2_pos (2 ^ 52))) with 53.
          replace (fexp prec emax (53 + (E + 1))) with (E + 1)
            by (unfold fexp, SpecFloat.emin, prec, emax in *; lia).
          rewrite Z.eqb_refl. cbn. apply Z.leb_le. exact Hle. }
        split; [lia|]. replace (E + 1 - E) with 1 by ring. reflexivity.
      * split; [lia|].
        assert (2 ^ 0 <= 2 ^ (E - (emax - prec))) by (apply Z.pow_le_mono_r; lia).
        change (2 ^ 0) with 1 in *. change (2 ^ 54 - 1) with 18014398509481983.
        change (2 ^ 53) with 9007199254740992 in Hpow. nia.
Qed.

(** *** From integers to rationals *)

Lemma Qmult_le_0_cancel (t c : Q) : (0 < c -> t * c <= 0 -> t <= 0)%Q.
Proof.
  intros Hc H. apply (Qmult_le_r t 0 c Hc). rewrite Qmult_0_l. exact H.
Qed.

Lemma Qmult_nonpos (t c : Q) : (t <= 0 -> 0 <= c -> t * c <= 0)%Q.
Proof.
  intros Ht Hc. rewrite <- (Qmult_0_l c). apply Qmult_le_compat_r; assumption.
Qed.

Lemma Q_half_bound (M K A N S T : Q) :
  (0 < N -> 0 < S -> 0 < K -> 1 <= T ->
   - (K * N) <= 2 * (M * (K * N)) - 2 * A <= K * N ->
   Qabs (M * K * S - A * S / N) <= T * K * S * (1 # 2))%Q.
Proof.
  intros HN HS HK HT [Hlo Hhi].
  set (Y := (A / N)%Q).
  assert (HA : (A == Y * N)%Q) by (unfold Y; field; lra).
  assert (H1 : (2 * M * K - 2 * Y - K <= 0)%Q).
  { apply (Qmult_le_0_cancel _ N HN). rewrite HA in Hhi. lra. }
  assert (H2 : (- (2 * M * K) + 2 * Y - K <= 0)%Q).
  { apply (Qmult_le_0_cancel _ N HN). rewrite HA in Hlo. lra. }
  assert (HE : (M * K * S - A * S / N == (M * K - Y) * S)%Q) by (unfold Y; field; lra).
  rewrite HE. clearbody Y. apply Qabs_Qle_condition.
  pose proof (Qmult_nonpos _ S H1 (Qlt_le_weak _ _ HS)) as P1.
  pose proof (Qmult_nonpos _ S H2 (Qlt_le_weak _ _ HS)) as P2.
  assert (P3 : (0 <= (T - 1) * (K * S))%Q).
  { apply Qmult_le_0_compat; [lra|]. apply Qmult_le_0_compat; lra. }
  split; lra.
Qed.

Lemma Q_no_overflow (c1 c2 K A N S U W : Q) :
  (0 < N -> 0 < S -> 0 < K -> 0 < U -> 2 * c2 < c1 ->
   W * U == K * S ->
   c1 * (K * N) <= 2 * A * U ->
   A * S / N <= c2 * W -> False)%Q.
Proof.
  intros HN HS HK HU Hc HWU Hbig Hmax.
  set (Y := (A / N)%Q).
  assert (HA : (A == Y * N)%Q) by (unfold Y; field; lra).
  assert (HE : (A * S / N == Y * S)%Q) by (unfold Y; field; lra).
  rewrite HE in Hmax. clearbody Y.
  assert (G1 : (c1 * K - 2 * Y * U <= 0)%Q).
  { apply (Qmult_le_0_cancel _ N HN). rewrite HA in Hbig. lra. }
  assert (Hc2 : (c2 * W * U == c2 * K * S)%Q).
  { rewrite <- !Qmult_assoc, HWU. reflexivity. }
  assert (G2 : (Y * U - c2 * K <= 0)%Q).
  { apply (Qmult_le_0_cancel _ S HS).
    assert (P : ((Y * S - c2 * W) * U <= 0)%Q) by (apply Qmult_nonpos; lra).
    lra. }
  assert (P3 : (0 < (c1 - 2 * c2) * K)%Q) by (apply Qmult_lt_0_compat; lra).
  lra.
Qed.

Lemma inject_Z_pos (z : Z) : 0 < z -> (0 < inject_Z z)%Q.
Proof. intros H. change 0%Q with (inject_Z 0). rewrite <- Zlt_Qlt. exact H. Qed.

Lemma inject_Z_sub (x y : Z) : (inject_Z (x - y) == inject_Z x - inject_Z y)%Q.
Proof. unfold Z.sub. rewrite inject_Z_plus, inject_Z_opp. reflexivity. Qed.

Lemma pow2_Q (z : Z) : 0 <= z -> (inject_Z (2 ^ z) == 2 ^ z)%Q.
Proof. intros Hz. apply (Zpower_Qpower 2 z Hz). Qed.

Lemma pow2_Q_pos (z : Z) : (0 < 2 ^ z)%Q.
Proof. apply Qpower_0_lt. reflexivity. Qed.

Lemma pow2_Q_split (a b : Z) : b <= a -> (2 ^ a == inject_Z (2 ^ (a - b)) * 2 ^ b)%Q.
Proof.
  intros H. rewrite pow2_Q by lia. rewrite <- Qpower_plus by discriminate.
  replace (a - b + b) with a by ring. reflexivity.
Qed.

Lemma Qabs_sign (sx : bool) (v x : Q) :
  (Qabs ((if sx then - v else v) - (if sx then - x else x)) == Qabs (v - x))%Q.
Proof.
  destruct sx; [|reflexivity].
  assert (H : (- v - - x == - (v - x))%Q) by ring.
  rewrite H. apply Qabs_opp.
Qed.

Lemma SF_Q_finite (s : bool) (m : positive) (e : Z) :
  (SF_Q (S754_finite s m e) ==
   if s then - (inject_Z (Zpos m) * 2 ^ e) else inject_Z (Zpos m) * 2 ^ e)%Q.
Proof.
  destruct s; cbn [SF_Q]; [|reflexivity].
  change (Z.neg m) with (- Zpos m). rewrite inject_Z_opp. ring.
Qed.

(** A quotient no larger than the largest float is rounded to a finite
    float within half a unit in the last place. *)
Lemma binary_round_aux_Q (sx : bool) (p n : positive) (e q e' : Z) (l : location) :
  SFdiv_core_binary prec emax (Zpos p) e (Zpos n) 0 = (q, e', l) ->
  (inject_Z (Zpos p) * 2 ^ e / inject_Z (Zpos n) <= max_float_Q)%Q ->
  valid_binary (binary_round_aux prec emax sx q e' l) = true /\
  match binary_round_aux prec emax sx q e' l with
  | S754_zero _ | S754_finite _ _ _ => True
  | S754_infinity _ | S754_nan => False
  end /\
  (Qabs (SF_Q (binary_round_aux prec emax sx q e' l) -
         (if sx then - (inject_Z (Zpos p) * 2 ^ e / inject_Z (Zpos n))
          else inject_Z (Zpos p) * 2 ^ e / inject_Z (Zpos n)))
   <= SF_ulp (binary_round_aux prec emax sx q e' l) * (1 # 2))%Q.
Proof.
  intros Hcore Hmax.
  set (x := (inject_Z (Zpos p) * 2 ^ e / inject_Z (Zpos n))%Q) in *.
  destruct (SFdiv_core_binary_spec p n e) as (q0 & e0 & l0 & Heq & He & Hloc & Hfexp).
  rewrite Hcore in Heq. injection Heq as <- <- <-.
  set (a := Zpos p * 2 ^ (e - e')) in *.
  destruct (binary_round_aux_spec sx q e' l _ _ Hloc Hfexp)
    as (m1 & k & Hk & Hm1 & Herr & Hcase).
  set (S := (2 ^ e')%Q). set (K := inject_Z (2 ^ k)). set (N := inject_Z (Zpos n)).
  set (A := inject_Z a). set (M := inject_Z m1).
  assert (HS : (0 < S)%Q) by apply pow2_Q_pos.
  assert (HN : (0 < N)%Q) by (apply inject_Z_pos; lia).
  assert (HK : (0 < K)%Q) by (apply inject_Z_pos, Z.pow_pos_nonneg; lia).
  assert (Hx : (x == A * S / N)%Q).
  { unfold x, A, a, S, N. rewrite inject_Z_mult, (pow2_Q_split e e' He). field.
    intros H. fold N in H. rewrite H in HN. discriminate HN. }
  clearbody x a.
  assert (HKS : (K * S == 2 ^ (e' + k))%Q).
  { unfold K, S. rewrite (pow2_Q_split (e' + k) e') by lia.
    replace (e' + k - e') with k by ring. reflexivity. }
  assert (HerrQ : (- (K * N) <= 2 * (M * (K * N)) - 2 * A <= K * N)%Q).
  { unfold K, N, M, A. destruct Herr as [Hlo Hhi].
    rewrite Zle_Qle in Hlo, Hhi.
    rewrite inject_Z_opp, inject_Z_sub, !inject_Z_mult in Hlo.
    rewrite inject_Z_sub, !inject_Z_mult in Hhi.
    split; [exact Hlo|exact Hhi]. }
  rewrite Hx in Hmax.
  destruct (binary_round_aux prec emax sx q e' l) as [s|s| |s m e''].
  - destruct Hcase as (-> & -> & HE).
    split; [reflexivity|]. split; [exact I|].
    cbn [SF_Q SF_ulp].
    assert (H0 : (0 - (if sx then - x else x) ==
                  (if sx then - 0 else 0) - (if sx then - x else x))%Q)
      by (destruct sx; ring).
    rewrite H0, Qabs_sign, Hx. rewrite <- HE, <- HKS.
    assert (H1 : (0 - A * S / N == inject_Z 0 * K * S - A * S / N)%Q) by (cbn; ring).
    rewrite H1.
    assert (H2 : (K * S * (1 # 2) == 1 * K * S * (1 # 2))%Q) by ring.
    rewrite H2. apply Q_half_bound; try assumption; lra.
  - exfalso. destruct Hcase as (HE & Hbig).
    set (U := inject_Z (2 ^ (e' + k - (emax - prec)))).
    assert (HU : (0 < U)%Q) by (apply inject_Z_pos, Z.pow_pos_nonneg; lia).
    assert (Hc : (2 * inject_Z (2 ^ 53 - 1) < inject_Z (2 ^ 54 - 1))%Q) by reflexivity.
    assert (HWU : (2 ^ (emax - prec) * U == K * S)%Q).
    { rewrite HKS. rewrite (pow2_Q_split (e' + k) (emax - prec)) by lia. unfold U. ring. }
    rewrite Zle_Qle in Hbig. rewrite !inject_Z_mult in Hbig.
    exact (Q_no_overflow _ _ K A N S U _ HN HS HK HU Hc HWU Hbig Hmax).
  - contradiction.
  - destruct Hcase as (-> & Hb & HE & Hm).
    split; [exact Hb|]. split; [exact I|].
    rewrite SF_Q_finite, Qabs_sign, Hx. cbn [SF_ulp].
    set (T := inject_Z (2 ^ (e'' - (e' + k)))).
    assert (HT : (1 <= T)%Q).
    { unfold T. change 1%Q with (inject_Z 1). rewrite <- Zle_Qle.
      pose proof (Z.pow_pos_nonneg 2 (e'' - (e' + k))). lia. }
    assert (He'' : (2 ^ e'' == T * K * S)%Q).
    { unfold T. rewrite (pow2_Q_split e'' (e' + k)) by lia. rewrite <- HKS. ring. }
    assert (Hv : (inject_Z (Zpos m) * 2 ^ e'' == M * K * S)%Q).
    { unfold M. rewrite <- Hm, inject_Z_mult, He''. fold T. ring. }
    rewrite Hv, He''. apply Q_half_bound; assumption.
Qed.

(** *** [round_quotient] and [float_mean] *)

Lemma Prim2SF_zero : Prim2SF zero = S754_zero false.
Proof. reflexivity. Qed.

Lemma Qabs_le_self (x c : Q) : (Qabs x <= c -> x <= c)%Q.
Proof. intros H. apply Qle_trans with (Qabs x); [apply Qle_Qabs|exact H]. Qed.

Lemma round_quotient_pos (sx : bool) (p n : positive) (e : Z) :
  (inject_Z (Zpos p) * 2 ^ e / inject_Z (Zpos n) <= max_float_Q)%Q ->
  let r := (let '(q, e', l) := SFdiv_core_binary prec emax (Zpos p) e (Zpos n) 0 in
            SF2Prim (binary_round_aux prec emax sx q e' l)) in
  is_finite r = true /\
  (Qabs (float_Q r - (if sx then - (inject_Z (Zpos p) * 2 ^ e / inject_Z (Zpos n))
                      else inject_Z (Zpos p) * 2 ^ e / inject_Z (Zpos n)))
   <= unit_in_last_place r * (1 # 2))%Q.
Proof.
  intros Hmax.
  destruct (SFdiv_core_binary prec emax (Zpos p) e (Zpos n) 0) as [[q e'] l] eqn:Hcore.
  destruct (binary_round_aux_Q sx p n e q e' l Hcore Hmax) as (Hv & Hfin & Hb).
  cbv beta iota zeta. unfold is_finite, exact_ratio, float_Q, unit_in_last_place.
  rewrite (Prim2SF_SF2Prim _ Hv).
  split; [|exact Hb].
  destruct (binary_round_aux prec emax sx q e' l); first [reflexivity | contradiction].
Qed.

Lemma round_quotient_spec (m e : Z) (n : positive) :
  (Qabs (inject_Z m * 2 ^ e / inject_Z (Zpos n)) <= max_float_Q)%Q ->
  is_finite (round_quotient m e n) = true /\
  (Qabs (float_Q (round_quotient m e n) - inject_Z m * 2 ^ e / inject_Z (Zpos n))
   <= unit_in_last_place (round_quotient m e n) * (1 # 2))%Q.
Proof.
  intros Hmax. destruct m as [|p|p]; unfold round_quotient.
  - split; [reflexivity|].
    unfold float_Q, unit_in_last_place. rewrite Prim2SF_zero. cbn [SF_Q SF_ulp].
    assert (H : (0 - inject_Z 0 * 2 ^ e / inject_Z (Zpos n) == 0)%Q).
    { unfold Qdiv. change (inject_Z 0) with 0%Q. ring. }
    rewrite H. change (Qabs 0) with 0%Q.
    pose proof (pow2_Q_pos emin). lra.
  - apply (round_quotient_pos false p n e). apply Qabs_le_self. exact Hmax.
  - assert (Hneg : (inject_Z (Zneg p) * 2 ^ e / inject_Z (Zpos n) ==
                    - (inject_Z (Zpos p) * 2 ^ e / inject_Z (Zpos n)))%Q).
    { change (Zneg p) with (- Zpos p). rewrite inject_Z_opp. unfold Qdiv. ring. }
    rewrite Hneg in Hmax |- *. rewrite Qabs_opp in Hmax.
    apply (round_quotient_pos true p n e). apply Qabs_le_self. exact Hmax.
Qed.

(** [exact_ratio] gives the value of a finite float. *)
Lemma exact_ratio_Q (x : float) (d : dyadic) :
  exact_ratio x = Some d -> (dyadic_Q d == float_Q x)%Q.
Proof.
  unfold exact_ratio, float_Q. destruct (Prim2SF x) as [s|s| |s m e]; intros [= <-].
  - unfold dyadic_Q. cbn. reflexivity.
  - reflexivity.
Qed.

Lemma mapM_exact_ratio_Q (xs : list float) (ds : list dyadic) :
  mapM exact_ratio xs = Some ds ->
  (sumQ (dyadic_Q <$> ds) == sumQ (float_Q <$> xs))%Q.
Proof.
  intros H. apply mapM_Some in H.
  induction H as [|x d xs ds Hx _ IH]; [reflexivity|].
  cbn. rewrite IH, (exact_ratio_Q x d Hx). reflexivity.
Qed.

Lemma is_finite_mapM (xs : list float) :
  Forall (fun x => is_finite x = true) xs -> exists ds, mapM exact_ratio xs = Some ds.
Proof.
  intros H. apply (mapM_is_Some exact_ratio xs).
  eapply Forall_impl; [exact H|]. intros x Hx. unfold is_finite in Hx. cbn.
  destruct (exact_ratio x); [eexists; reflexivity|discriminate].
Qed.

(** No float is larger than the largest finite float. *)
Lemma float_Q_bound (x : float) : (Qabs (float_Q x) <= max_float_Q)%Q.
Proof.
  unfold float_Q. pose proof (Prim2SF_valid x) as Hv.
  assert (H0 : (0 <= max_float_Q)%Q).
  { unfold max_float_Q. apply Qmult_le_0_compat; [discriminate|].
    apply Qlt_le_weak, pow2_Q_pos. }
  destruct (Prim2SF x) as [s|s| |s m e]; try exact H0.
  cbn [valid_binary] in Hv. unfold bounded, canonical_mantissa in Hv.
  apply andb_true_iff in Hv. destruct Hv as [Hc He].
  apply Z.eqb_eq in Hc. apply Z.leb_le in He.
  destruct (fexp_canonical (Zpos (digits2_pos m)) e ltac:(lia) Hc) as (_ & Hd & _).
  pose proof (digits2_pos_bounds m) as [_ Hm].
  assert (Hm' : Zpos m <= 2 ^ 53 - 1).
  { assert (2 ^ Zpos (digits2_pos m) <= 2 ^ prec) by (apply Z.pow_le_mono_r; lia).
    change (2 ^ prec) with (2 ^ 53) in *. lia. }
  rewrite SF_Q_finite.
  assert (Habs : (Qabs (if s then - (inject_Z (Zpos m) * 2 ^ e) else inject_Z (Zpos m) * 2 ^ e)
                  == inject_Z (Zpos m) * 2 ^ e)%Q).
  { assert (0 <= inject_Z (Zpos m) * 2 ^ e)%Q.
    { apply Qmult_le_0_compat; [discriminate|apply Qlt_le_weak, pow2_Q_pos]. }
    destruct s; [rewrite Qabs_opp|]; apply Qabs_pos; assumption. }
  rewrite Habs. unfold max_float_Q.
  apply Qle_trans with (inject_Z (2 ^ 53 - 1) * 2 ^ e)%Q.
  - apply Qmult_le_compat_r; [|apply Qlt_le_weak, pow2_Q_pos].
    rewrite <- Zle_Qle. exact Hm'.
  - rewrite !(Qmult_comm (inject_Z (2 ^ 53 - 1))).
    apply Qmult_le_compat_r; [|discriminate].
    apply Qpower_le_compat_l; [exact He|discriminate].
Qed.

Lemma sumQ_bound (c : Q) (qs : list Q) :
  Forall (fun q => (Qabs q <= c)%Q) qs ->
  (Qabs (sumQ qs) <= inject_Z (Z.of_nat (length qs)) * c)%Q.
Proof.
  induction 1 as [|q qs Hq _ IH].
  - cbn. rewrite Qmult_0_l. discriminate.
  - cbn [sumQ fold_right length]. rewrite Nat2Z.inj_succ, <- Z.add_1_r, inject_Z_plus.
    apply Qle_trans with (Qabs q + Qabs (fold_right Qplus 0%Q qs))%Q; [apply Qabs_triangle|].
    change (fold_right Qplus 0%Q qs) with (sumQ qs).
    change (inject_Z 1) with 1%Q. lra.
Qed.

Lemma arithmetic_mean_bound (c : Q) (qs : list Q) :
  qs <> [] -> Forall (fun q => (Qabs q <= c)%Q) qs ->
  (Qabs (arithmetic_mean qs) <= c)%Q.
Proof.
  intros Hne Hall. unfold arithmetic_mean.
  assert (Hn : (0 < inject_Z (Z.of_nat (length qs)))%Q).
  { apply inject_Z_pos. destruct qs; [contradiction|cbn [length]; lia]. }
  unfold Qdiv. rewrite Qabs_Qmult, (Qabs_pos (/ _)) by (apply Qlt_le_weak, Qinv_lt_0_compat, Hn).
  apply Qle_shift_div_r; [exact Hn|].
  rewrite Qmult_comm. apply sumQ_bound. exact Hall.
Qed.

(** The mean of finite floats is the arithmetic mean of their values,
    correctly rounded: finite, and within half a unit in its last place. *)
Lemma float_mean_rounded (samples : list float) :
  samples <> [] -> Forall (fun x => is_finite x = true) samples ->
  is_finite (float_mean samples) = true /\
  (Qabs (float_Q (float_mean samples) - arithmetic_mean (float_Q <$> samples))
   <= unit_in_last_place (float_mean samples) / 2)%Q.
Proof.
  intros Hne Hall. destruct (is_finite_mapM samples Hall) as [ds Hds].
  unfold float_mean. rewrite Hds.
  set (t := exact_sum ds).
  assert (Hmean : (inject_Z (fst t) * 2 ^ snd t / inject_Z (Zpos (Pos.of_nat (length samples)))
                   == arithmetic_mean (float_Q <$> samples))%Q).
  { unfold arithmetic_mean. rewrite length_fmap.
    replace (Zpos (Pos.of_nat (length samples))) with (Z.of_nat (length samples))
      by (destruct samples; [contradiction|cbn [length]; lia]).
    rewrite <- (mapM_exact_ratio_Q samples ds Hds), <- (exact_sum_Q ds).
    reflexivity. }
  assert (Hbound : (Qabs (arithmetic_mean (float_Q <$> samples)) <= max_float_Q)%Q).
  { apply arithmetic_mean_bound.
    - destruct samples; [contradiction|discriminate].
    - apply Forall_fmap, Forall_forall. intros x _. apply float_Q_bound. }
  rewrite <- Hmean in Hbound |- *.
  destruct (round_quotient_spec (fst t) (snd t) (Pos.of_nat (length samples)) Hbound)
    as [Hfin Hb].
  split; [exact Hfin|].
  unfold Qdiv. change (/ 2)%Q with (1 # 2)%Q. exact Hb.
Qed.

(** ** Logger.average_samples *)

Lemma mapM_id_Some (xs : list float) : mapM id (Some <$> xs) = Some xs.
Proof.
  induction xs as [|x xs IH]; [reflexivity|].
  cbn. cbn in IH. rewrite IH. reflexivity.
Qed.

Lemma average_samples_floats (xs : list float) :
  Logger.average_samples (Some <$> xs) = Ok (average xs).
Proof.
  unfold Logger.average_samples, mean. rewrite length_fmap, mapM_id_Some.
  destruct xs; reflexivity.
Qed.

(** C8: [average_samples] returns NaN on an empty list and otherwise the
    mean of the list it is given, each list on its own; for finite samples
    that mean is a finite float that differs from the arithmetic mean of
    the samples (their exact sum divided by their number) by at most half
    a unit in its last place: the arithmetic mean, rounded to nearest. *)
Theorem average_samples_mean (samples : list float) :
  Logger.average_samples (Some <$> samples) =
    Ok (match samples with [] => nan | _ :: _ => float_mean samples end) /\
  is_nan nan = true /\
  (samples <> [] ->
   Forall (fun x => is_finite x = true) samples ->
   is_finite (float_mean samples) = true /\
   (Qabs (float_Q (float_mean samples) - arithmetic_mean (float_Q <$> samples))
    <= unit_in_last_place (float_mean samples) / 2)%Q).
Proof.
  split; [apply average_samples_floats|]. split; [reflexivity|].
  apply float_mean_rounded.
Qed.

Lemma average_samples_mean_witness :
  is_finite (float_mean [21.5; 22.25; 23.125]%float) = true /\
  (Qabs (float_Q (float_mean [21.5; 22.25; 23.125]%float) -
         arithmetic_mean (float_Q <$> [21.5; 22.25; 23.125]%float))
   <= unit_in_last_place (float_mean [21.5; 22.25; 23.125]%float) / 2)%Q.
Proof.
  exact (proj2 (proj2 (average_samples_mean [21.5; 22.25; 23.125]%float))
           ltac:(discriminate) ltac:(repeat constructor)).
Defined.

(** ** Logger.read_sensor *)

Lemma readings_cons (o : outcome) (os : list outcome) :
  readings (o :: os) = (sampled o ++ readings os)%list.
Proof. destruct o; reflexivity. Qed.

(** What [read_sensor] leaves alone. *)
Lemma read_sensor_frame (self : Logger.t) :
  Logger.f (Logger.read_sensor self) = Logger.f self /\
  Logger.datafile (Logger.read_sensor self) = Logger.datafile self /\
  Sensor.devID (Logger.sensor (Logger.read_sensor self)) =
    Sensor.devID (Logger.sensor self).
Proof.
  unfold Logger.read_sensor.
  destruct (Sensor.error (Sensor.poll (Logger.sensor self))); cbn;
    repeat split; apply poll_keeps_identity.
Qed.

(** One tick of a logger whose sensor has no failure pending. *)
Lemma read_sensor_step (self : Logger.t) (o : outcome) (rest : list access) :
  Sensor.error (Logger.sensor self) = false ->
  DHT22.script (Sensor.sensor (Logger.sensor self)) = (accesses o ++ rest)%list ->
  let self' := Logger.read_sensor self in
  Sensor.error (Logger.sensor self') = false /\
  DHT22.script (Sensor.sensor (Logger.sensor self')) = rest /\
  Logger.tempc self' = (Logger.tempc self ++ (Some <$> (sampled o).*1))%list /\
  Logger.tempf self' =
    (Logger.tempf self ++ (Some <$> (fahrenheit <$> (sampled o).*1)))%list /\
  Logger.humidity self' = (Logger.humidity self ++ (Some <$> (sampled o).*2))%list.
Proof.
  intros Herr Hscript. destruct (poll_script _ _ _ Hscript) as [Hrest Hup].
  unfold Logger.read_sensor. cbn zeta.
  destruct o as [x y|m|x m].
  - destruct (poll_reading _ x y Hup) as (Ht & Hh & He & _).
    rewrite He, Herr. cbn.
    rewrite get_tempf_fahrenheit. unfold Sensor.get_tempc, Sensor.get_humidity.
    rewrite Ht, Hh, He, Herr. repeat split. assumption.
  - destruct (poll_failure (Logger.sensor self) m) as (_ & _ & He & _);
      [rewrite Hup; reflexivity|].
    rewrite He. cbn. rewrite !app_nil_r. repeat split. assumption.
  - destruct (poll_failure (Logger.sensor self) m) as (_ & _ & He & _);
      [rewrite Hup; reflexivity|].
    rewrite He. cbn. rewrite !app_nil_r. repeat split. assumption.
Qed.

(** Whatever the state of the sensor, a tick appends floats only, and to
    the three lists together. *)
Lemma read_sensor_window (self : Logger.t) (cs fs hs : list float) :
  Logger.tempc self = Some <$> cs ->
  Logger.tempf self = Some <$> fs ->
  Logger.humidity self = Some <$> hs ->
  exists cs' fs' hs' : list float,
    Logger.tempc (Logger.read_sensor self) = Some <$> cs' /\
    Logger.tempf (Logger.read_sensor self) = Some <$> fs' /\
    Logger.humidity (Logger.read_sensor self) = Some <$> hs'.
Proof.
  intros Hc Hf Hh. unfold Logger.read_sensor.
  destruct (Sensor.error (Sensor.poll (Logger.sensor self))) eqn:E; cbn.
  - exists cs, fs, hs. repeat split; assumption.
  - destruct (poll_no_error_has_reading _ E) as (x & y & Hup).
    destruct (poll_reading _ x y Hup) as (Ht & Hy & _).
    exists (cs ++ [x])%list, (fs ++ [fahrenheit x])%list, (hs ++ [y])%list.
    rewrite get_tempf_fahrenheit. unfold Sensor.get_tempc, Sensor.get_humidity.
    rewrite Ht, Hy, Hc, Hf, Hh, !fmap_app. repeat split.
Qed.

(** ** Ticks *)

Lemma ticks_frame (n : nat) (self : Logger.t) :
  Logger.f (ticks n self) = Logger.f self /\
  Logger.datafile (ticks n self) = Logger.datafile self /\
  Sensor.devID (Logger.sensor (ticks n self)) = Sensor.devID (Logger.sensor self).
Proof.
  revert self. induction n as [|n IH]; intros self; [repeat split|].
  cbn. destruct (IH (Logger.read_sensor self)) as (-> & -> & ->).
  apply read_sensor_frame.
Qed.

Lemma ticks_window (n : nat) (self : Logger.t) (cs fs hs : list float) :
  Logger.tempc self = Some <$> cs ->
  Logger.tempf self = Some <$> fs ->
  Logger.humidity self = Some <$> hs ->
  exists cs' fs' hs' : list float,
    Logger.tempc (ticks n self) = Some <$> cs' /\
    Logger.tempf (ticks n self) = Some <$> fs' /\
    Logger.humidity (ticks n self) = Some <$> hs'.
Proof.
  revert self cs fs hs. induction n as [|n IH]; intros self cs fs hs Hc Hf Hh.
  - exists cs, fs, hs. repeat split; assumption.
  - destruct (read_sensor_window self cs fs hs Hc Hf Hh) as (cs' & fs' & hs' & Hc' & Hf' & Hh').
    cbn. exact (IH _ cs' fs' hs' Hc' Hf' Hh').
Qed.

(** [length os] ticks against the outcomes [os]: exactly the readings among
    them are appended, in order. *)
Lemma ticks_samples (os : list outcome) (self : Logger.t) (rest : list access) :
  Sensor.error (Logger.sensor self) = false ->
  DHT22.script (Sensor.sensor (Logger.sensor self)) = (wired os ++ rest)%list ->
  let self' := ticks (length os) self in
  Sensor.error (Logger.sensor self') = false /\
  DHT22.script (Sensor.sensor (Logger.sensor self')) = rest /\
  Logger.tempc self' = (Logger.tempc self ++ (Some <$> (readings os).*1))%list /\
  Logger.tempf self' =
    (Logger.tempf self ++ (Some <$> (fahrenheit <$> (readings os).*1)))%list /\
  Logger.humidity self' = (Logger.humidity self ++ (Some <$> (readings os).*2))%list.
Proof.
  revert self. induction os as [|o os IH]; intros self Herr Hscript.
  - cbn. rewrite !app_nil_r. repeat split; assumption.
  - unfold wired in Hscript. cbn in Hscript. rewrite <- app_assoc in Hscript.
    destruct (read_sensor_step self o _ Herr Hscript) as (He & Hs & Hc & Hf & Hh).
    destruct (IH (Logger.read_sensor self) He Hs) as (He' & Hs' & Hc' & Hf' & Hh').
    cbn [length ticks]. cbn zeta. rewrite readings_cons.
    rewrite Hc', Hf', Hh', Hc, Hf, Hh, !fmap_app, <- !app_assoc.
    repeat split; assumption.
Qed.

(** ** Logger.log_data *)

Lemma log_data_floats (self : Logger.t) (cs fs hs : list float) (w : World) :
  Logger.tempc self = Some <$> cs ->
  Logger.tempf self = Some <$> fs ->
  Logger.humidity self = Some <$> hs ->
  Logger.log_data self w =
    match Logger.f self with
    | Some path =>
        Ok (self,
            write path
              (Logger.row (Sensor.devID (Logger.sensor self)) (clock w)
                 (average cs) (average fs) (average hs)) w)
    | None => Raise (AttributeError "f")
    end.
Proof.
  intros Hc Hf Hh. unfold Logger.log_data.
  rewrite Hc, Hf, Hh, !average_samples_floats. reflexivity.
Qed.

(** ** Claims about one logger *)




(** A run whose log file cannot be opened is not silent: the ten ticks of
    the first cycle go by, and the first [log_data] raises
    [AttributeError], which ends [main]. *)
Lemma main_unopenable_log :
  exists w : World,
    main ["humtemplogger.py"; "hive"; "4"] (bench (cycle1 ++ cycle1 ++ cycle1 ++ cycle1) false)
      = (Raise (AttributeError "f"), w) /\
    clock w = 10%nat /\
    files w = ∅.
Proof.
  eexists. split; [vm_compute; reflexivity|]. split; reflexivity.
Qed.

(** A reading of 0.0 degrees Celsius goes into the row as 0.0 degrees
    Fahrenheit. *)
Lemma log_data_zero_celsius :
  Logger.log_data (ticks 1 (fresh_logger [Reading 0 50])) (bench [] true) =
    Ok (ticks 1 (fresh_logger [Reading 0 50]),
        write "hive_board.D4.csv" (Logger.row "board.D4" 0 0 0 50) (bench [] true)).
Proof. vm_compute. reflexivity. Qed.

(** C7: when the log file cannot be opened, [Logger.__init__] still
    returns a logger, reports nothing and changes nothing in the world,
    but it leaves the logger without its file attribute; so after any
    number of ticks [log_data] (like [__del__]) raises [AttributeError]
    where the claim has the write silently discarded. *)
Theorem logger_without_file (sensor : Sensor.t) (logfile : string) (w : World) :
  openable w logfile = false ->
  let self := fst (Logger.__init__ sensor logfile w) in
  snd (Logger.__init__ sensor logfile w) = w /\
  Logger.f self = None /\
  Logger.__del__ self = Raise (AttributeError "f") /\
  forall (n : nat) (w' : World),
    Logger.log_data (ticks n self) w' = Raise (AttributeError "f").
Proof.
  intros Hopen. unfold Logger.__init__. rewrite Hopen. cbn.
  repeat split. intros n w'.
  set (self := {| Logger.sensor := sensor; Logger.datafile := logfile;
                  Logger.tempc := []; Logger.tempf := []; Logger.humidity := [];
                  Logger.error_message := Logger.Empty; Logger.f := None |}).
  destruct (ticks_window n self [] [] [] eq_refl eq_refl eq_refl)
    as (cs & fs & hs & Hc & Hf & Hh).
  rewrite (log_data_floats _ cs fs hs w' Hc Hf Hh).
  destruct (ticks_frame n self) as (-> & _). reflexivity.
Qed.

Lemma logger_without_file_witness :
  let self := fst (Logger.__init__ (settled_sensor cycle1) "hive_board.D4.csv"
                     (bench cycle1 false)) in
  snd (Logger.__init__ (settled_sensor cycle1) "hive_board.D4.csv" (bench cycle1 false))
    = bench cycle1 false /\
  Logger.f self = None /\
  Logger.__del__ self = Raise (AttributeError "f") /\
  forall (n : nat) (w' : World),
    Logger.log_data (ticks n self) w' = Raise (AttributeError "f").
Proof.
  exact (logger_without_file (settled_sensor cycle1) "hive_board.D4.csv"
           (bench cycle1 false) eq_refl).
Defined.

(** ** Files *)

Lemma contents_touch_as (path logfile : string) (c : list text) (w : World) :
  contents logfile w = c ->
  contents path (set_files (<[logfile := c]> (files w)) w) = contents path w.
Proof.
  intros <-. unfold contents. cbn. destruct (decide (logfile = path)) as [->|Hne].
  - rewrite lookup_insert_eq. reflexivity.
  - rewrite lookup_insert_ne by assumption. reflexivity.
Qed.

Lemma contents_touch (path logfile : string) (w : World) :
  contents path (set_files (<[logfile := contents logfile w]> (files w)) w) =
    contents path w.
Proof. apply contents_touch_as. reflexivity. Qed.

Lemma contents_write (path logfile : string) (s : text) (w : World) :
  contents path (write logfile s w) =
    if decide (logfile = path) then (contents path w ++ [s])%list
    else contents path w.
Proof.
  unfold write, contents at 1. cbn. destruct (decide (logfile = path)) as [->|Hne].
  - rewrite lookup_insert_eq. reflexivity.
  - rewrite lookup_insert_ne by assumption. reflexivity.
Qed.

(** [Logger.__init__] prints nothing, takes no time and writes at most the
    header, and that only to an empty file. *)
Lemma logger_init_world (sensor : Sensor.t) (logfile : string) (w : World) :
  let w' := snd (Logger.__init__ sensor logfile w) in
  stdout w' = stdout w /\ clock w' = clock w /\
  hardware w' = hardware w /\ openable w' = openable w /\
  forall path : string,
    contents path w' = contents path w \/
    (path = logfile /\ contents path w = [] /\ contents path w' = [Logger.header]).
Proof.
  unfold Logger.__init__. destruct (openable w logfile); cbn zeta; cbn [snd].
  - unfold Logger.st_size_is_zero. rewrite contents_touch.
    destruct (contents logfile w) as [|c cs] eqn:E.
    + repeat split. intros path.
      rewrite contents_write, (contents_touch_as _ _ _ _ E).
      destruct (decide (logfile = path)) as [<-|Hne]; [right|left; reflexivity].
      rewrite E. repeat split.
    + repeat split. intros path. left. apply contents_touch_as, E.
  - repeat split. intros path. left. reflexivity.
Qed.

(** ** Pin arguments *)

Lemma init_non_integer (hw : Z -> list access) (arg : string) :
  parse_int arg = None ->
  Sensor.__init__ hw arg None = Raise (invalid_literal arg).
Proof. intros H. unfold Sensor.__init__, int. rewrite H. reflexivity. Qed.

Lemma init_out_of_range (hw : Z -> list access) (arg : string) :
  out_of_range arg = true ->
  Sensor.__init__ hw arg None = Raise (InvalidPinError invalid_pin_message).
Proof.
  unfold out_of_range, Sensor.__init__, int, in_range.
  destruct (parse_int arg) as [g|]; [|discriminate]. cbn.
  destruct ((0 <=? g)%Z && (g <=? 27)%Z); [discriminate|reflexivity].
Qed.

Lemma init_in_range (hw : Z -> list access) (arg : string) (gpio : Z) :
  parse_int arg = Some gpio ->
  in_range gpio = true ->
  exists s : Sensor.t,
    Sensor.__init__ hw arg None = Ok s /\
    Sensor.devID s = "board.D" ++ pretty gpio.
Proof.
  intros Hp Hr. unfold Sensor.__init__, int. rewrite Hp. cbn.
  unfold in_range in Hr. rewrite Hr. eexists. split; [reflexivity|].
  apply poll_keeps_identity.
Qed.

(** ** The construction loop *)

Lemma construct_non_integer (prefix arg : string) (rest : list string)
    (vars : locals) (loggers : list Logger.t) (w : World) :
  parse_int arg = None ->
  construct prefix (arg :: rest) vars loggers w = (Raise (invalid_literal arg), w).
Proof. intros H. cbn. rewrite (init_non_integer _ _ H). reflexivity. Qed.

(** Out-of-range pins are reported and skipped: the loop goes on with the
    same loggers in a world that differs by the report only. *)
Lemma construct_out_of_range (prefix : string) (skipped rest : list string)
    (vars : locals) (loggers : list Logger.t) (w : World) :
  Forall (fun arg => out_of_range arg = true) skipped ->
  exists w' : World,
    construct prefix (skipped ++ rest) vars loggers w =
      construct prefix rest vars loggers w' /\
    stdout w' = (stdout w ++ skip_report skipped)%list /\
    files w' = files w /\ clock w' = clock w /\
    hardware w' = hardware w /\ openable w' = openable w.
Proof.
  intros Hall. revert w. induction Hall as [|arg skipped Harg _ IH]; intros w.
  - exists w. cbn. rewrite app_nil_r. repeat split.
  - cbn [app construct]. rewrite (init_out_of_range _ _ Harg).
    destruct (IH (print ("skipping pin #" ++ arg) (print invalid_pin_message w)))
      as (w' & Hrun & Hout & Hfiles & Hclock & Hhw & Hopen).
    exists w'. split; [exact Hrun|]. split; [|repeat split; assumption].
    rewrite Hout. cbn. rewrite <- !app_assoc. reflexivity.
Qed.

(** ** The loops over no logger *)

Lemma sample_loop_nil (readings samples : nat) (w : World) :
  exists (w' : World) (lines : list string),
    sample_loop readings samples [] w = ([], w') /\
    files w' = files w /\ clock w' = (clock w + samples)%nat /\
    stdout w' = (stdout w ++ lines)%list.
Proof.
  revert w. induction samples as [|n IH]; intros w.
  - exists w, []. cbn. rewrite app_nil_r. repeat split. lia.
  - cbn [sample_loop map].
    destruct (IH (sleep 1 (print_end (progress readings (S n)) "" w)))
      as (w' & lines & Hrun & Hfiles & Hclock & Hout).
    exists w', ((progress readings (S n) ++ "") :: lines).
    split; [exact Hrun|]. split; [exact Hfiles|]. split.
    + rewrite Hclock. cbn. lia.
    + rewrite Hout. cbn. rewrite <- app_assoc. reflexivity.
Qed.

Lemma reading_loop_nil (samples readings : nat) (w : World) :
  exists (w' : World) (lines : list string),
    reading_loop samples readings [] w = (Ok [], w') /\
    files w' = files w /\ clock w' = (clock w + readings * samples)%nat /\
    stdout w' = (stdout w ++ lines)%list.
Proof.
  revert w. induction readings as [|n IH]; intros w.
  - exists w, []. cbn. rewrite app_nil_r. repeat split. lia.
  - cbn [reading_loop].
    destruct (sample_loop_nil (S n) samples w) as (w1 & l1 & -> & Hf1 & Hc1 & Ho1).
    destruct (IH w1) as (w2 & l2 & Hrun & Hf2 & Hc2 & Ho2).
    exists w2, (l1 ++ l2)%list. cbn. split; [exact Hrun|]. split; [congruence|].
    split; [lia|]. rewrite Ho2, Ho1, <- app_assoc. reflexivity.
Qed.

(** ** main *)

Lemma main_with_pins (samples readings : nat) (prog prefix pin : string)
    (pins : list string) (w : World) :
  help_requested [prog; prefix] = false ->
  main_with samples readings (prog :: prefix :: pin :: pins) w =
    (built <<- construct prefix (pin :: pins) unassigned [] ;;
     _ <<- reading_loop samples readings (snd built) ;;
     ret 0) w.
Proof.
  intros Hhelp. unfold main_with.
  change (help_requested (prog :: prefix :: pin :: pins)) with (help_requested [prog; prefix]).
  rewrite Hhelp. reflexivity.
Qed.

(** C4: both default paths of [main] read a local variable that no
    statement has assigned yet.  Without a prefix the message about the
    default prefix reads [logfile]; with a prefix and no pins the default
    branch reads [sen].  Either run ends in [UnboundLocalError] before any
    sensor or file is touched. *)
Theorem main_defaults_raise (prog prefix : string) (w : World) :
  help_requested [prog; prefix] = false ->
  main [prog] w = (Raise (UnboundLocalError "logfile"), w) /\
  main [prog; prefix] w =
    (Raise (UnboundLocalError "sen"),
     print "no gpio data pins specified, using default value:  4" w).
Proof.
  intros Hhelp. split; [reflexivity|].
  unfold main, main_with. rewrite Hhelp. reflexivity.
Qed.

Lemma main_defaults_raise_witness :
  main ["humtemplogger.py"] (bench cycle1 true) =
    (Raise (UnboundLocalError "logfile"), bench cycle1 true) /\
  main ["humtemplogger.py"; "beehive_1"] (bench cycle1 true) =
    (Raise (UnboundLocalError "sen"),
     print "no gpio data pins specified, using default value:  4" (bench cycle1 true)).
Proof.
  exact (main_defaults_raise "humtemplogger.py" "beehive_1" (bench cycle1 true) eq_refl).
Defined.

(** Pins that are integers outside 0..27 are reported and skipped, and a
    run with nothing but such pins is a clean no-op: exit status 0, no
    file touched, two lines of report per pin, then the progress lines of
    the fifty ticks. *)
Lemma main_out_of_range_pins (prog prefix pin : string) (pins : list string) (w : World) :
  help_requested [prog; prefix] = false ->
  Forall (fun arg => out_of_range arg = true) (pin :: pins) ->
  exists (w' : World) (lines : list string),
    main (prog :: prefix :: pin :: pins) w = (Ok 0, w') /\
    files w' = files w /\
    clock w' = (clock w + 50)%nat /\
    stdout w' = (stdout w ++ skip_report (pin :: pins) ++ lines)%list.
Proof.
  intros Hhelp Hall. unfold main. rewrite main_with_pins by assumption.
  destruct (construct_out_of_range prefix (pin :: pins) [] unassigned [] w Hall)
    as (w1 & Hrun & Hout & Hfiles & Hclock & _).
  rewrite app_nil_r in Hrun. unfold bindM at 1. rewrite Hrun. cbn [construct ret snd].
  destruct (reading_loop_nil 10 5 w1) as (w2 & lines & Hloop & Hfiles2 & Hclock2 & Hout2).
  exists w2, lines. unfold bindM. rewrite Hloop. cbn.
  split; [reflexivity|]. split; [congruence|]. split; [lia|].
  rewrite Hout2, Hout, <- app_assoc. reflexivity.
Qed.

(** C6: a pin argument that is no integer is not reported and skipped.
    [int] raises [ValueError], which [main] does not catch: the run ends
    there, before the first tick, and the valid pin before it gets no row
    (its file receives the header at most). *)
Theorem main_non_integer_pin_is_fatal (prog prefix good bad : string)
    (gpio : Z) (w : World) :
  help_requested [prog; prefix] = false ->
  parse_int good = Some gpio ->
  in_range gpio = true ->
  parse_int bad = None ->
  exists w' : World,
    main [prog; prefix; good; bad] w = (Raise (invalid_literal bad), w') /\
    stdout w' = stdout w /\
    clock w' = clock w /\
    forall path : string,
      contents path w' = contents path w \/ contents path w' = [Logger.header].
Proof.
  intros Hhelp Hgood Hrange Hbad. unfold main. rewrite main_with_pins by assumption.
  destruct (init_in_range (hardware w) good gpio Hgood Hrange) as (s & Hinit & _).
  unfold bindM at 1. cbn [construct]. rewrite Hinit.
  destruct (Logger.__init__ s (logfile_name prefix s) w) as [logger w1] eqn:Hlog.
  rewrite (init_non_integer _ _ Hbad).
  destruct (logger_init_world s (logfile_name prefix s) w) as (Ho & Hc & _ & _ & Hf).
  rewrite Hlog in Ho, Hc, Hf. cbn [snd] in Ho, Hc, Hf.
  exists w1. repeat split; try assumption.
  intros path. destruct (Hf path) as [H|(_ & _ & H)]; [left|right]; exact H.
Qed.

Lemma main_non_integer_pin_is_fatal_witness :
  exists w' : World,
    main ["humtemplogger.py"; "hive"; "4"; "abc"] (bench cycle1 true) =
      (Raise (invalid_literal "abc"), w') /\
    stdout w' = stdout (bench cycle1 true) /\
    clock w' = clock (bench cycle1 true) /\
    forall path : string,
      contents path w' = contents path (bench cycle1 true) \/
      contents path w' = [Logger.header].
Proof.
  exact (main_non_integer_pin_is_fatal "humtemplogger.py" "hive" "4" "abc" 4
           (bench cycle1 true) eq_refl eq_refl eq_refl eq_refl).
Defined.

(** What holds of C6: with pin 4 valid and pin 99 out of range, pin 99 is
    reported and skipped and pin 4 gets its header and its five rows. *)
Lemma main_valid_and_out_of_range_pin :
  exists w' : World,
    main ["humtemplogger.py"; "hive"; "4"; "99"]
      (bench (Reading 19.5 48 :: cycle1) true) = (Ok 0, w') /\
    take 2 (stdout w') = skip_report ["99"] /\
    contents "hive_board.D4.csv" w' =
      [Logger.header;
       Logger.row "board.D4" 10 21 69.8 52.5; Logger.row "board.D4" 20 21 69.8 52.5;
       Logger.row "board.D4" 30 21 69.8 52.5; Logger.row "board.D4" 40 21 69.8 52.5;
       Logger.row "board.D4" 50 21 69.8 52.5].
Proof.
  eexists. split; [vm_compute; reflexivity|]. split; vm_compute; reflexivity.
Qed.

(** C9: a run whose pin arguments are all invalid does not always end
    cleanly.  When one of them is no integer, the pins before it being
    integers out of range, [int] raises [ValueError] out of [main]: no
    exit status, although no logger was built and no file touched. *)
Theorem main_all_pins_invalid_is_fatal (prog prefix : string)
    (skipped : list string) (bad : string) (rest : list string) (w : World) :
  help_requested [prog; prefix] = false ->
  Forall (fun arg => out_of_range arg = true) skipped ->
  parse_int bad = None ->
  exists w' : World,
    main (prog :: prefix :: skipped ++ bad :: rest) w = (Raise (invalid_literal bad), w') /\
    files w' = files w /\
    clock w' = clock w /\
    stdout w' = (stdout w ++ skip_report skipped)%list.
Proof.
  intros Hhelp Hall Hbad.
  destruct (construct_out_of_range prefix skipped (bad :: rest) unassigned [] w Hall)
    as (w1 & Hrun & Hout & Hfiles & Hclock & _).
  rewrite (construct_non_integer _ _ _ _ _ _ Hbad) in Hrun.
  exists w1. split; [|repeat split; assumption].
  unfold main. destruct skipped as [|pin skipped].
  - cbn [app] in *. rewrite main_with_pins by assumption.
    unfold bindM at 1. rewrite Hrun. reflexivity.
  - cbn [app] in *. rewrite main_with_pins by assumption.
    unfold bindM at 1. rewrite Hrun. reflexivity.
Qed.

Lemma main_all_pins_invalid_is_fatal_witness :
  exists w' : World,
    main ["humtemplogger.py"; "hive"; "99"; "abc"] (bench cycle1 true) =
      (Raise (invalid_literal "abc"), w') /\
    files w' = files (bench cycle1 true) /\
    clock w' = clock (bench cycle1 true) /\
    stdout w' = (stdout (bench cycle1 true) ++ skip_report ["99"])%list.
Proof.
  apply (main_all_pins_invalid_is_fatal "humtemplogger.py" "hive" ["99"] "abc" []
           (bench cycle1 true)); [reflexivity|repeat constructor|reflexivity].
Defined.

(** ** The end-to-end scenario *)



(** The same run when the hardware has nothing but the six outcomes of the
    scenario: [Sensor.__init__] uses up the first reading, so the window
    only ever holds the reading of 22.0 and 55.0, and both rows show it. *)
Lemma end_to_end_without_startup_reading :
  exists w' : World,
    main_with 3 2 ["humtemplogger.py"; "humtemp"; "4"] (bench (cycle1 ++ cycle2) true)
      = (Ok 0, w') /\
    contents log_of_pin_4 w' =
      [Logger.header;
       Logger.row "board.D4" 3 22 71.6 55;
       Logger.row "board.D4" 6 22 71.6 55].
Proof.
  eexists. split; [vm_compute; reflexivity|]. vm_compute. reflexivity.
Qed.

(** * Further properties

    ** The help request *)

(** X1: with [--help] or [-h] as first argument [main] prints the two
    usage lines and returns 0; whatever else is on the command line, no
    sensor is constructed, no file opened and no time spent. *)
Theorem main_help (prog flag : string) (rest : list string) (w : World) :
  flag = "--help" \/ flag = "-h" ->
  main (prog :: flag :: rest) w =
    (Ok 0,
     print "example:  humtemplogger beehive_1 4 17"
       (print "humtemplogger ussage:  humtemplogger [datafile_prefix [pin numbers...]]" w)).
Proof. intros [-> | ->]; reflexivity. Qed.

Lemma main_help_witness :
  main ["humtemplogger.py"; "-h"; "4"; "abc"] (bench cycle1 false) =
    (Ok 0,
     print "example:  humtemplogger beehive_1 4 17"
       (print "humtemplogger ussage:  humtemplogger [datafile_prefix [pin numbers...]]"
          (bench cycle1 false))).
Proof.
  apply (main_help "humtemplogger.py" "-h" ["4"; "abc"] (bench cycle1 false)).
  right. reflexivity.
Defined.

(** ** Sensor.__init__ *)

(** X2: [Sensor.__init__] raises the [ValueError] of [int] for an argument
    that [int] does not convert (no integer literal, or one of more than
    4300 digits) and [InvalidPinError] for an integer outside 0..27; otherwise
    it returns a sensor on that pin, named as asked or after the pin, that
    has been polled once: it holds the first reading, or holds nothing and
    has that poll's failure pending. *)
Theorem sensor_init_cases (hw : Z -> list access) (arg : string) (devID : option string) :
  match parse_int arg with
  | None => Sensor.__init__ hw arg devID = Raise (invalid_literal arg)
  | Some gpio =>
      if in_range gpio then
        exists s : Sensor.t,
          Sensor.__init__ hw arg devID = Ok s /\
          Sensor.pin s = gpio /\
          Sensor.devID s = default ("board.D" ++ pretty gpio) devID /\
          match upcoming {| DHT22.script := hw gpio |} with
          | Reading x y =>
              Sensor.temp s = Some x /\ Sensor.humidity s = Some y /\
              Sensor.error s = false /\ Sensor.error_message s = None
          | FailTemperature msg | FailHumidity _ msg =>
              Sensor.temp s = None /\ Sensor.humidity s = None /\
              Sensor.error s = true /\ Sensor.error_message s = Some msg
          end
      else Sensor.__init__ hw arg devID = Raise (InvalidPinError invalid_pin_message)
  end.
Proof.
  unfold Sensor.__init__, int, in_range.
  destruct (parse_int arg) as [gpio|]; [|reflexivity]. cbn.
  destruct ((0 <=? gpio)%Z && (gpio <=? 27)%Z); [|reflexivity].
  eexists. split; [reflexivity|].
  match goal with |- context [Sensor.poll ?s0] => set (s := s0) end.
  destruct (poll_keeps_identity s) as [Hid Hpin].
  split; [exact Hpin|]. split; [rewrite Hid; destruct devID; reflexivity|].
  change {| DHT22.script := hw gpio |} with (Sensor.sensor s).
  destruct (upcoming (Sensor.sensor s)) as [x y|m|x m] eqn:E.
  - destruct (poll_reading s x y E) as (Ht & Hh & He & Hm).
    rewrite Ht, Hh, He, Hm. repeat split.
  - apply (poll_failure s m). rewrite E. reflexivity.
  - apply (poll_failure s m). rewrite E. reflexivity.
Qed.

Lemma length_append (s t : string) :
  String.length (s ++ t) = (String.length s + String.length t)%nat.
Proof. induction s as [|c s IH]; [reflexivity|]. cbn. rewrite <- IH. reflexivity. Qed.

Lemma append_cancel_r (s1 s2 t : string) : s1 ++ t = s2 ++ t -> s1 = s2.
Proof.
  revert s2. induction s1 as [|c s1 IH]; intros [|d s2] H.
  - reflexivity.
  - apply (f_equal String.length) in H. rewrite !length_append in H. cbn in H. lia.
  - apply (f_equal String.length) in H. rewrite !length_append in H. cbn in H. lia.
  - injection H as -> H. f_equal. apply IH, H.
Qed.

Lemma log_of_inj (prefix : string) (a b : Z) : log_of prefix a = log_of prefix b -> a = b.
Proof.
  unfold log_of. intros H.
  apply (inj (String.append prefix)), (inj (String.append "_")) in H.
  apply append_cancel_r, (inj (String.append "board.D")) in H.
  apply pretty_Z_inj in H. exact H.
Qed.

(** What a successful [Sensor.__init__] tells about its argument. *)
Lemma init_ok_inv (hw : Z -> list access) (arg : string) (s : Sensor.t) :
  Sensor.__init__ hw arg None = Ok s ->
  accepted arg = Some (Sensor.pin s) /\
  Sensor.devID s = "board.D" ++ pretty (Sensor.pin s).
Proof.
  unfold Sensor.__init__, int, accepted, in_range.
  destruct (parse_int arg) as [gpio|]; [|discriminate]. cbn.
  destruct ((0 <=? gpio)%Z && (gpio <=? 27)%Z); [|discriminate].
  intros [= <-].
  match goal with |- context [Sensor.poll ?s0] => set (s := s0) end.
  destruct (poll_keeps_identity s) as [-> ->]. split; reflexivity.
Qed.

Lemma logfile_name_log_of (hw : Z -> list access) (prefix arg : string) (s : Sensor.t) :
  Sensor.__init__ hw arg None = Ok s ->
  logfile_name prefix s = log_of prefix (Sensor.pin s).
Proof.
  intros H. destruct (init_ok_inv hw arg s H) as [_ Hid].
  unfold logfile_name, log_of. rewrite Hid. reflexivity.
Qed.

(** X3: sensors that [main] constructs on different pins log to different
    files. *)
Theorem logfile_names_differ (hw : Z -> list access) (prefix a b : string)
    (sa sb : Sensor.t) :
  Sensor.__init__ hw a None = Ok sa ->
  Sensor.__init__ hw b None = Ok sb ->
  Sensor.pin sa <> Sensor.pin sb ->
  logfile_name prefix sa <> logfile_name prefix sb.
Proof.
  intros Ha Hb Hne Heq. apply Hne.
  rewrite (logfile_name_log_of hw prefix a sa Ha) in Heq.
  rewrite (logfile_name_log_of hw prefix b sb Hb) in Heq.
  exact (log_of_inj prefix _ _ Heq).
Qed.

Lemma logfile_names_differ_witness :
  exists sa sb : Sensor.t,
    Sensor.__init__ (hardware (bench cycle1 true)) "4" None = Ok sa /\
    Sensor.__init__ (hardware (bench cycle1 true)) " 17" None = Ok sb /\
    logfile_name "hive" sa <> logfile_name "hive" sb.
Proof.
  eexists. eexists. split; [reflexivity|]. split; [reflexivity|].
  apply (logfile_names_differ (hardware (bench cycle1 true)) "hive" "4" " 17");
    [reflexivity|reflexivity|discriminate].
Defined.

(** ** The window *)

(** One tick, whatever the state of the sensor: the window keeps what it
    has and gains at most one sample, in its three views at once. *)
Lemma read_sensor_holds (self : Logger.t) (samples : list (float * float)) :
  holds self samples ->
  exists extra : list (float * float),
    holds (Logger.read_sensor self) (samples ++ extra)%list /\
    (length extra <= 1)%nat.
Proof.
  intros (Hc & Hf & Hh). unfold Logger.read_sensor.
  destruct (Sensor.error (Sensor.poll (Logger.sensor self))) eqn:E; cbn.
  - exists []. rewrite app_nil_r. split; [repeat split; assumption|cbn; lia].
  - destruct (poll_no_error_has_reading _ E) as (x & y & Hup).
    destruct (poll_reading _ x y Hup) as (Ht & Hy & _).
    exists [(x, y)]. split; [|cbn; lia].
    unfold holds. cbn. rewrite get_tempf_fahrenheit.
    unfold Sensor.get_tempc, Sensor.get_humidity.
    rewrite Ht, Hy, Hc, Hf, Hh, !fmap_app. repeat split.
Qed.

Lemma ticks_holds (n : nat) (self : Logger.t) (samples : list (float * float)) :
  holds self samples ->
  exists extra : list (float * float),
    holds (ticks n self) (samples ++ extra)%list /\ (length extra <= n)%nat.
Proof.
  revert self samples. induction n as [|n IH]; intros self samples H.
  - exists []. rewrite app_nil_r. split; [exact H|cbn; lia].
  - destruct (read_sensor_holds self samples H) as (e1 & H1 & L1).
    destruct (IH _ _ H1) as (e2 & H2 & L2).
    exists (e1 ++ e2)%list. rewrite app_assoc. split; [exact H2|].
    rewrite length_app. lia.
Qed.

Lemma logger_init_holds (sensor : Sensor.t) (logfile : string) (w : World) :
  holds (fst (Logger.__init__ sensor logfile w)) [].
Proof.
  unfold Logger.__init__. destruct (openable w logfile); repeat split.
Qed.

(** X4: from its construction on and through any number of ticks, whatever
    the sensor does, the three lists of a logger are the three views of
    one list of samples: equally long, floats only, and each Fahrenheit
    entry computed from the Celsius entry at the same place; [n] ticks
    leave at most [n] samples. *)
Theorem window_invariant (sensor : Sensor.t) (logfile : string) (w : World) (n : nat) :
  exists samples : list (float * float),
    holds (ticks n (fst (Logger.__init__ sensor logfile w))) samples /\
    (length samples <= n)%nat.
Proof.
  destruct (ticks_holds n _ [] (logger_init_holds sensor logfile w)) as (extra & H & L).
  exists extra. split; assumption.
Qed.

(** One tick never removes or rewrites what a list holds. *)
Lemma read_sensor_prefix (self : Logger.t) :
  Logger.tempc self `prefix_of` Logger.tempc (Logger.read_sensor self) /\
  Logger.tempf self `prefix_of` Logger.tempf (Logger.read_sensor self) /\
  Logger.humidity self `prefix_of` Logger.humidity (Logger.read_sensor self).
Proof.
  unfold Logger.read_sensor.
  destruct (Sensor.error (Sensor.poll (Logger.sensor self))); cbn;
    repeat split; try reflexivity; apply prefix_app_r; reflexivity.
Qed.

(** One tick adds at most one entry to each list. *)
Lemma read_sensor_lengths (self : Logger.t) :
  (length (Logger.tempc (Logger.read_sensor self)) <= length (Logger.tempc self) + 1)%nat /\
  (length (Logger.tempf (Logger.read_sensor self)) <= length (Logger.tempf self) + 1)%nat /\
  (length (Logger.humidity (Logger.read_sensor self))
   <= length (Logger.humidity self) + 1)%nat.
Proof.
  unfold Logger.read_sensor.
  destruct (Sensor.error (Sensor.poll (Logger.sensor self))); cbn;
    rewrite ?length_app; cbn; repeat split; lia.
Qed.

(** X6: ticks only ever append.  Whatever a logger's lists hold, after any
    number of ticks each of the three lists starts with what it held
    before, and each has grown by at most one entry per tick. *)
Theorem ticks_append_only (n : nat) (self : Logger.t) :
  Logger.tempc self `prefix_of` Logger.tempc (ticks n self) /\
  Logger.tempf self `prefix_of` Logger.tempf (ticks n self) /\
  Logger.humidity self `prefix_of` Logger.humidity (ticks n self) /\
  (length (Logger.tempc (ticks n self)) <= length (Logger.tempc self) + n)%nat /\
  (length (Logger.tempf (ticks n self)) <= length (Logger.tempf self) + n)%nat /\
  (length (Logger.humidity (ticks n self)) <= length (Logger.humidity self) + n)%nat.
Proof.
  revert self. induction n as [|n IH]; intros self.
  - cbn. repeat split; try reflexivity; lia.
  - destruct (read_sensor_prefix self) as (Hc & Hf & Hh).
    destruct (read_sensor_lengths self) as (Lc & Lf & Lh).
    destruct (IH (Logger.read_sensor self)) as (Hc' & Hf' & Hh' & Lc' & Lf' & Lh').
    cbn [ticks]. repeat split; try (etrans; eassumption); lia.
Qed.

(** ** A failure pending at the first tick *)

(** X5: a logger whose sensor still has a failure pending (as after a
    failed poll in [Sensor.__init__]) gains nothing from its next tick,
    even when that poll succeeds: the tick only takes the old failure.
    From then on every successful poll is sampled. *)
Theorem pending_failure_costs_a_sample (self : Logger.t) (o : outcome)
    (os : list outcome) (rest : list access) (samples : list (float * float)) :
  Sensor.error (Logger.sensor self) = true ->
  DHT22.script (Sensor.sensor (Logger.sensor self)) =
    (accesses o ++ wired os ++ rest)%list ->
  holds self samples ->
  holds (Logger.read_sensor self) samples /\
  Logger.error_message (Logger.read_sensor self) =
    Logger.Taken (match failure o with
                  | Some msg => Some msg
                  | None => Sensor.error_message (Logger.sensor self)
                  end) /\
  holds (ticks (S (length os)) self) (samples ++ readings os)%list.
Proof.
  intros Herr Hscript (Hc & Hf & Hh).
  destruct (poll_script _ _ _ Hscript) as [Hrest Hup].
  assert (He : Sensor.error (Sensor.poll (Logger.sensor self)) = true).
  { destruct o as [x y|m|x m].
    - destruct (poll_reading _ x y Hup) as (_ & _ & -> & _). exact Herr.
    - apply (poll_failure _ m). rewrite Hup. reflexivity.
    - apply (poll_failure _ m). rewrite Hup. reflexivity. }
  assert (Hm : Sensor.error_message (Sensor.poll (Logger.sensor self)) =
               match failure o with
               | Some msg => Some msg
               | None => Sensor.error_message (Logger.sensor self)
               end).
  { destruct o as [x y|m|x m]; cbn [failure].
    - apply (poll_reading _ x y Hup).
    - apply (poll_failure _ m). rewrite Hup. reflexivity.
    - apply (poll_failure _ m). rewrite Hup. reflexivity. }
  set (self1 := Logger.read_sensor self).
  assert (H1 : Logger.tempc self1 = Logger.tempc self /\
               Logger.tempf self1 = Logger.tempf self /\
               Logger.humidity self1 = Logger.humidity self /\
               Logger.error_message self1 =
                 Logger.Taken (Sensor.error_message (Sensor.poll (Logger.sensor self))) /\
               Sensor.error (Logger.sensor self1) = false /\
               DHT22.script (Sensor.sensor (Logger.sensor self1)) = (wired os ++ rest)%list).
  { unfold self1, Logger.read_sensor. rewrite He. cbn. repeat split. exact Hrest. }
  destruct H1 as (Hc1 & Hf1 & Hh1 & Hm1 & He1 & Hs1).
  split; [unfold holds; rewrite Hc1, Hf1, Hh1; repeat split; assumption|].
  split; [rewrite Hm1, Hm; reflexivity|].
  destruct (ticks_samples os self1 rest He1 Hs1) as (_ & _ & Hc2 & Hf2 & Hh2).
  cbn [ticks]. fold self1. unfold holds.
  rewrite Hc2, Hf2, Hh2, Hc1, Hf1, Hh1, Hc, Hf, Hh, !fmap_app. repeat split.
Qed.

Lemma pending_failure_costs_a_sample_witness :
  holds (Logger.read_sensor pending_logger) [] /\
  Logger.error_message (Logger.read_sensor pending_logger) =
    Logger.Taken (Some checksum_error) /\
  holds (ticks 2 pending_logger) [(22, 55)%float].
Proof.
  exact (pending_failure_costs_a_sample pending_logger (Reading 20 50) [Reading 22 55]
           [] [] eq_refl eq_refl (conj eq_refl (conj eq_refl eq_refl))).
Defined.

(** X7: a logger keeps the message of its latest failed poll.  After ticks
    against the outcomes [os], starting with no failure pending,
    [error_message] is what the last failure among [os] raised, and is
    untouched when none failed. *)
Theorem logger_keeps_latest_failure (os : list outcome) (self : Logger.t)
    (rest : list access) :
  Sensor.error (Logger.sensor self) = false ->
  DHT22.script (Sensor.sensor (Logger.sensor self)) = (wired os ++ rest)%list ->
  Logger.error_message (ticks (length os) self) =
    match last (failures os) with
    | Some msg => Logger.Taken (Some msg)
    | None => Logger.error_message self
    end.
Proof.
  revert self. induction os as [|o os IH]; intros self Herr Hscript; [reflexivity|].
  unfold wired in Hscript. cbn in Hscript. rewrite <- app_assoc in Hscript.
  destruct (read_sensor_step self o _ Herr Hscript) as (He & Hs & _).
  cbn [length ticks]. rewrite (IH _ He Hs).
  destruct (poll_script _ _ _ Hscript) as [_ Hup].
  assert (Hm : Logger.error_message (Logger.read_sensor self) =
               match failure o with
               | Some msg => Logger.Taken (Some msg)
               | None => Logger.error_message self
               end).
  { unfold Logger.read_sensor. destruct o as [x y|m|x m]; cbn [failure].
    - destruct (poll_reading _ x y Hup) as (_ & _ & -> & _). rewrite Herr. reflexivity.
    - destruct (poll_failure (Logger.sensor self) m) as (_ & _ & He' & Hm');
        [rewrite Hup; reflexivity|].
      rewrite He'. cbn. rewrite Hm'. reflexivity.
    - destruct (poll_failure (Logger.sensor self) m) as (_ & _ & He' & Hm');
        [rewrite Hup; reflexivity|].
      rewrite He'. cbn. rewrite Hm'. reflexivity. }
  change (failures (o :: os))
    with (match failure o with Some y => y :: failures os | None => failures os end).
  destruct (failure o) as [m|].
  - rewrite last_cons. destruct (last (failures os)); [reflexivity|exact Hm].
  - destruct (last (failures os)); [reflexivity|exact Hm].
Qed.

Lemma logger_keeps_latest_failure_witness :
  Logger.error_message (ticks 3 (fresh_logger cycle1)) =
    Logger.Taken (Some checksum_error).
Proof.
  exact (logger_keeps_latest_failure cycle1 (fresh_logger cycle1) [] eq_refl eq_refl).
Defined.

(** ** Logger.__init__ and the header *)

Lemma logger_init_contents (sensor : Sensor.t) (logfile path : string) (w : World) :
  openable w logfile = true ->
  Logger.f (fst (Logger.__init__ sensor logfile w)) = Some logfile /\
  contents path (snd (Logger.__init__ sensor logfile w)) =
    if decide (path = logfile) then
      match contents logfile w with
      | [] => [Logger.header]
      | _ :: _ => contents logfile w
      end
    else contents path w.
Proof.
  intros Hopen. unfold Logger.__init__. rewrite Hopen. cbn [fst snd].
  split; [reflexivity|].
  unfold Logger.st_size_is_zero. rewrite contents_touch.
  destruct (contents logfile w) as [|c cs] eqn:E.
  - rewrite contents_write, (contents_touch_as _ _ _ _ E).
    destruct (decide (logfile = path)) as [<-|Hne].
    + rewrite decide_True by reflexivity. rewrite E. reflexivity.
    + rewrite decide_False by congruence. reflexivity.
  - rewrite (contents_touch_as _ _ _ _ E).
    destruct (decide (path = logfile)) as [->|Hne]; [exact E|reflexivity].
Qed.



(** ** Logger.log_data and the file *)



(** ** What a run does to the world *)

Lemma grown_refl (w : World) : grown w w.
Proof. repeat split; reflexivity. Qed.

Lemma grown_trans (w1 w2 w3 : World) : grown w1 w2 -> grown w2 w3 -> grown w1 w3.
Proof.
  intros (Hh & Ho & Hc & Hs & Hf) (Hh' & Ho' & Hc' & Hs' & Hf').
  split; [congruence|]. split; [congruence|]. split; [lia|].
  split; [etrans; eassumption|]. intros path. etrans; [apply Hf|apply Hf'].
Qed.

Lemma grown_print_end (s e : string) (w : World) : grown w (print_end s e w).
Proof.
  unfold grown. cbn. split; [reflexivity|]. split; [reflexivity|]. split; [lia|].
  split; [apply prefix_app_r; reflexivity|]. intros path. reflexivity.
Qed.

Lemma grown_sleep (secs : nat) (w : World) : grown w (sleep secs w).
Proof.
  unfold grown. cbn. split; [reflexivity|]. split; [reflexivity|]. split; [lia|].
  split; [reflexivity|]. intros path. reflexivity.
Qed.

Lemma grown_write (path : string) (s : text) (w : World) : grown w (write path s w).
Proof.
  unfold grown. split; [reflexivity|]. split; [reflexivity|]. split; [cbn; lia|].
  split; [reflexivity|]. intros p. rewrite contents_write.
  destruct (decide (path = p)); [apply prefix_app_r|]; reflexivity.
Qed.

Lemma logger_init_grown (sensor : Sensor.t) (logfile : string) (w : World) :
  grown w (snd (Logger.__init__ sensor logfile w)).
Proof.
  destruct (logger_init_world sensor logfile w) as (Ho & Hc & Hh & Hop & Hf).
  split; [exact Hh|]. split; [exact Hop|]. split; [lia|].
  split; [rewrite Ho; reflexivity|]. intros path.
  destruct (Hf path) as [->|(_ & -> & _)]; [reflexivity|apply prefix_nil].
Qed.

Lemma log_data_grown (self : Logger.t) (w : World) :
  match Logger.log_data self w with
  | Ok (_, w') => grown w w'
  | Raise _ => True
  end.
Proof.
  unfold Logger.log_data, bind.
  destruct (Logger.average_samples (Logger.tempc self)); [|exact I].
  destruct (Logger.average_samples (Logger.tempf self)); [|exact I].
  destruct (Logger.average_samples (Logger.humidity self)); [|exact I].
  destruct (Logger.f self); [apply grown_write|exact I].
Qed.

Lemma growing_ret {A : Type} (a : A) : growing (ret a).
Proof. intros w. apply grown_refl. Qed.

Lemma growing_raise {A : Type} (e : exn) : growing (@raise A e).
Proof. intros w. apply grown_refl. Qed.

Lemma growing_bind {A B : Type} (m : M A) (k : A -> M B) :
  growing m -> (forall a, growing (k a)) -> growing (bindM m k).
Proof.
  intros Hm Hk w. unfold bindM. specialize (Hm w).
  destruct (m w) as [[a|e] w1]; cbn [snd] in *; [|exact Hm].
  exact (grown_trans _ _ _ Hm (Hk a w1)).
Qed.

Lemma growing_load {A : Type} (name : string) (v : option A) : growing (load name v).
Proof. destruct v; [apply growing_ret|apply growing_raise]. Qed.

Lemma growing_construct (prefix : string) (pins : list string) (vars : locals)
    (loggers : list Logger.t) :
  growing (construct prefix pins vars loggers).
Proof.
  revert vars loggers. induction pins as [|arg rest IH]; intros vars loggers w.
  - apply grown_refl.
  - cbn [construct]. destruct (Sensor.__init__ (hardware w) arg None) as [s|e].
    + pose proof (logger_init_grown s (logfile_name prefix s) w) as Hg.
      destruct (Logger.__init__ s (logfile_name prefix s) w) as [logger w1].
      exact (grown_trans _ _ _ Hg (IH _ _ w1)).
    + destruct e; try apply grown_refl.
      eapply grown_trans; [|apply IH].
      eapply grown_trans; apply grown_print_end.
Qed.

Lemma growing_log_all (loggers : list Logger.t) : growing (log_all loggers).
Proof.
  induction loggers as [|logger rest IH]; intros w; [apply grown_refl|].
  cbn [log_all]. pose proof (log_data_grown logger w) as Hg.
  destruct (Logger.log_data logger w) as [[logger' w1]|e]; [|apply grown_refl].
  apply (grown_trans _ w1); [exact Hg|].
  apply (growing_bind (log_all rest)); [exact IH|]. intros a. apply growing_ret.
Qed.

Lemma sample_loop_grown (readings samples : nat) (loggers : list Logger.t) (w : World) :
  grown w (snd (sample_loop readings samples loggers w)).
Proof.
  revert loggers w. induction samples as [|n IH]; intros loggers w; [apply grown_refl|].
  cbn [sample_loop]. eapply grown_trans; [|apply IH].
  eapply grown_trans; [apply grown_print_end|apply grown_sleep].
Qed.

Lemma growing_reading_loop (samples readings : nat) (loggers : list Logger.t) :
  growing (reading_loop samples readings loggers).
Proof.
  revert loggers. induction readings as [|n IH]; intros loggers w; [apply grown_refl|].
  cbn [reading_loop]. pose proof (sample_loop_grown (S n) samples loggers w) as Hg.
  destruct (sample_loop (S n) samples loggers w) as [loggers1 w1]. cbn [snd] in Hg.
  apply (grown_trans _ w1); [exact Hg|].
  apply (growing_bind (log_all loggers1)); [apply growing_log_all|]. intros a. apply IH.
Qed.

Lemma growing_act (step : World -> World) :
  (forall w, grown w (step w)) -> growing (act step).
Proof. intros H w. apply H. Qed.

(** X13: whatever the arguments, the hardware and the files, and whether
    it returns or raises, a run of [main] only adds to the world: every
    file keeps the content it had as the start of its content, standard
    output is only extended, the clock does not go back. *)
Theorem main_only_appends (args : list string) (w : World) :
  grown w (snd (main args w)).
Proof.
  revert w. change (growing (main args)). unfold main, main_with.
  destruct (help_requested args).
  - repeat (apply growing_bind; [apply growing_act; intros w; apply grown_print_end|intros _]).
    apply growing_ret.
  - apply growing_bind.
    + destruct (1 <? length args)%nat; [apply growing_ret|].
      apply growing_bind; [apply growing_load|]. intros shown.
      apply growing_bind; [apply growing_act; intros w; apply grown_print_end|].
      intros _. apply growing_ret.
    + intros prefix. apply growing_bind.
      * destruct (2 <? length args)%nat; [apply growing_construct|].
        apply growing_bind; [apply growing_act; intros w; apply grown_print_end|].
        intros _. apply growing_bind; [apply growing_load|]. intros s w.
        pose proof (logger_init_grown s (logfile_name prefix s) w) as Hg.
        destruct (Logger.__init__ s (logfile_name prefix s) w). exact Hg.
      * intros built. apply growing_bind; [apply growing_reading_loop|].
        intros _. apply growing_ret.
Qed.

(** ** The construction loop, pin by pin *)

Lemma accepted_is_integer (arg : string) :
  is_integer arg = true ->
  (exists gpio, accepted arg = Some gpio) \/ (accepted arg = None /\ out_of_range arg = true).
Proof.
  unfold is_integer, accepted, out_of_range.
  destruct (parse_int arg) as [g|]; [|discriminate]. intros _.
  destruct (in_range g); [left; eauto|right; split; reflexivity].
Qed.

Lemma accepted_not_out_of_range (arg : string) (gpio : Z) :
  accepted arg = Some gpio -> out_of_range arg = false.
Proof.
  unfold accepted, out_of_range. destruct (parse_int arg) as [g|]; [|discriminate].
  destruct (in_range g); [reflexivity|discriminate].
Qed.

(** An accepted pin: the loop goes on with one more logger, in the world
    [Logger.__init__] left. *)
Lemma construct_accepted (prefix arg : string) (gpio : Z) (rest : list string)
    (vars : locals) (loggers : list Logger.t) (w : World) :
  accepted arg = Some gpio ->
  exists s : Sensor.t,
    Sensor.pin s = gpio /\
    construct prefix (arg :: rest) vars loggers w =
      construct prefix rest
        {| logfile := Some (log_of prefix gpio); sen := Some s |}
        (loggers ++ [fst (Logger.__init__ s (log_of prefix gpio) w)])%list
        (snd (Logger.__init__ s (log_of prefix gpio) w)).
Proof.
  intros Hacc.
  assert (Hinit : exists s, Sensor.__init__ (hardware w) arg None = Ok s).
  { unfold accepted in Hacc. destruct (parse_int arg) as [g|] eqn:Hp; [|discriminate].
    destruct (in_range g) eqn:Hr; [|discriminate].
    destruct (init_in_range (hardware w) arg g Hp Hr) as (s & Hs & _). eauto. }
  destruct Hinit as (s & Hs). exists s.
  destruct (init_ok_inv _ _ _ Hs) as [Hpin _]. rewrite Hacc in Hpin.
  injection Hpin as Hpin. split; [congruence|].
  cbn [construct]. rewrite Hs, (logfile_name_log_of _ prefix _ _ Hs), <- Hpin.
  destruct (Logger.__init__ s (log_of prefix gpio) w). reflexivity.
Qed.

Lemma logger_init_fields (sensor : Sensor.t) (logfile : string) (w : World) :
  Logger.datafile (fst (Logger.__init__ sensor logfile w)) = logfile /\
  Logger.sensor (fst (Logger.__init__ sensor logfile w)) = sensor /\
  Logger.f (fst (Logger.__init__ sensor logfile w)) =
    (if openable w logfile then Some logfile else None).
Proof. unfold Logger.__init__. destruct (openable w logfile); repeat split. Qed.

(** The loop over pin arguments that are all integers. *)
Lemma construct_integers (prefix : string) (pins : list string) (vars : locals)
    (loggers : list Logger.t) (w : World) :
  Forall (fun arg => is_integer arg = true) pins ->
  exists (vars' : locals) (news : list Logger.t) (w' : World),
    construct prefix pins vars loggers w = (Ok (vars', (loggers ++ news)%list), w') /\
    Logger.datafile <$> news = logs_of prefix pins /\
    (fun l => Sensor.pin (Logger.sensor l)) <$> news = omap accepted pins /\
    Forall (fun l => holds l [] /\
                     Logger.f l =
                       if openable w (Logger.datafile l) then Some (Logger.datafile l)
                       else None) news /\
    stdout w' = (stdout w ++ skip_report (filter (fun arg => out_of_range arg = true) pins))%list /\
    clock w' = clock w /\ hardware w' = hardware w /\ openable w' = openable w.
Proof.
  intros Hall. revert vars loggers w.
  induction Hall as [|arg rest Harg _ IH]; intros vars loggers w.
  - exists vars, [], w. cbn. rewrite !app_nil_r. repeat split. constructor.
  - destruct (accepted_is_integer arg Harg) as [[g Hacc]|[Hacc Hout]].
    + destruct (construct_accepted prefix arg g rest vars loggers w Hacc) as (s & Hpin & ->).
      destruct (logger_init_world s (log_of prefix g) w) as (Ho & Hc & Hh & Hop & _).
      destruct (logger_init_fields s (log_of prefix g) w) as (Hd & Hs & Hf).
      set (logger := fst (Logger.__init__ s (log_of prefix g) w)) in *.
      set (w1 := snd (Logger.__init__ s (log_of prefix g) w)) in *.
      destruct (IH {| logfile := Some (log_of prefix g); sen := Some s |}
                  (loggers ++ [logger])%list w1)
        as (vars' & news & w' & Hrun & Hdata & Hpins & Hnews & Hout & Hclock & Hhw & Hopen).
      exists vars', (logger :: news), w'.
      split; [rewrite Hrun, <- app_assoc; reflexivity|].
      unfold logs_of. cbn [omap list_omap]. rewrite Hacc. cbn [fmap list_fmap].
      split; [f_equal; [exact Hd|exact Hdata]|].
      split; [f_equal; [rewrite Hs; exact Hpin|exact Hpins]|].
      split.
      { constructor.
        - split; [apply logger_init_holds|]. rewrite Hd. exact Hf.
        - rewrite Hop in Hnews. exact Hnews. }
      rewrite filter_cons_False by (rewrite (accepted_not_out_of_range _ _ Hacc); discriminate).
      repeat split; congruence.
    + cbn [construct]. rewrite (init_out_of_range _ _ Hout).
      destruct (IH vars loggers (print ("skipping pin #" ++ arg) (print invalid_pin_message w)))
        as (vars' & news & w' & Hrun & Hdata & Hpins & Hnews & Hout' & Hclock & Hhw & Hopen).
      exists vars', news, w'. split; [exact Hrun|].
      unfold logs_of. cbn [omap list_omap]. rewrite Hacc.
      split; [exact Hdata|]. split; [exact Hpins|]. split; [exact Hnews|].
      rewrite filter_cons_True by exact Hout.
      split; [|repeat split; assumption].
      rewrite Hout'. cbn. rewrite <- !app_assoc. reflexivity.
Qed.

(** X10: when every pin argument is an integer that [int] converts (a
    literal of at most 4300 digits), the loop over them builds
    one logger per argument in 0..27, in the order given, on the pin
    named and with the log file named after prefix and pin, and prints
    the two lines of report for each argument outside 0..27; it raises
    nothing and takes no time. *)
Theorem construct_one_logger_per_valid_pin (prefix : string) (pins : list string)
    (w : World) :
  Forall (fun arg => is_integer arg = true) pins ->
  exists (vars : locals) (loggers : list Logger.t) (w' : World),
    construct prefix pins unassigned [] w = (Ok (vars, loggers), w') /\
    (fun l => Sensor.pin (Logger.sensor l)) <$> loggers = omap accepted pins /\
    Logger.datafile <$> loggers = log_of prefix <$> omap accepted pins /\
    stdout w' = (stdout w ++ skip_report (filter (fun arg => out_of_range arg = true) pins))%list /\
    clock w' = clock w.
Proof.
  intros Hall.
  destruct (construct_integers prefix pins unassigned [] w Hall)
    as (vars & news & w' & Hrun & Hdata & Hpins & _ & Hout & Hclock & _).
  exists vars, news, w'. repeat split; assumption.
Qed.

Lemma construct_one_logger_per_valid_pin_witness :
  exists (vars : locals) (loggers : list Logger.t) (w' : World),
    construct "hive" ["4"; "99"; " 17"; "-1"] unassigned [] (bench cycle1 true) =
      (Ok (vars, loggers), w') /\
    (fun l => Sensor.pin (Logger.sensor l)) <$> loggers = [4; 17] /\
    Logger.datafile <$> loggers = ["hive_board.D4.csv"; "hive_board.D17.csv"] /\
    stdout w' = skip_report ["99"; "-1"] /\
    clock w' = 0%nat.
Proof.
  apply (construct_one_logger_per_valid_pin "hive" ["4"; "99"; " 17"; "-1"]
           (bench cycle1 true)).
  repeat constructor.
Defined.

(** ** The loops over loggers that are ready *)

(** The inner loop is [samples] ticks of every logger; in the world it
    only prints and sleeps. *)
Lemma sample_loop_ticks (readings samples : nat) (loggers : list Logger.t) (w : World) :
  exists w' : World,
    sample_loop readings samples loggers w = (map (ticks samples) loggers, w') /\
    files w' = files w /\ clock w' = (clock w + samples)%nat.
Proof.
  revert loggers w. induction samples as [|n IH]; intros loggers w.
  - exists w. cbn. rewrite map_id. repeat split. lia.
  - cbn [sample_loop].
    destruct (IH (map Logger.read_sensor loggers)
                (sleep 1 (print_end (progress readings (S n)) "" w)))
      as (w' & Hrun & Hfiles & Hclock).
    exists w'. rewrite Hrun, map_map. split; [reflexivity|].
    split; [exact Hfiles|]. rewrite Hclock. cbn. lia.
Qed.

Lemma ticks_ready (n : nat) (self : Logger.t) :
  ready self -> ready (ticks n self) /\ Logger.f (ticks n self) = Logger.f self.
Proof.
  intros [Hf (samples & Hs)]. destruct (ticks_frame n self) as (Hf' & _).
  split; [|exact Hf']. split; [rewrite Hf'; exact Hf|].
  destruct (ticks_holds n self samples Hs) as (extra & H & _). eauto.
Qed.

Lemma map_ticks_ready (n : nat) (loggers : list Logger.t) :
  Forall ready loggers ->
  Forall ready (map (ticks n) loggers) /\
  forall path, writers path (map (ticks n) loggers) = writers path loggers.
Proof.
  induction 1 as [|l ls Hl _ [IH1 IH2]]; [split; [constructor|reflexivity]|].
  destruct (ticks_ready n l Hl) as [Hr Hf]. split; [constructor; assumption|].
  intros path. specialize (IH2 path). unfold writers in *. cbn [map].
  destruct (decide (Logger.f l = Some path)) as [He|Hne].
  - rewrite !filter_cons_True by congruence. cbn. rewrite IH2. reflexivity.
  - rewrite !filter_cons_False by congruence. exact IH2.
Qed.

(** One flush of ready loggers: every logger writes its row, none
    changes. *)
Lemma log_all_ready (loggers : list Logger.t) (w : World) :
  Forall ready loggers ->
  exists w' : World,
    log_all loggers w = (Ok loggers, w') /\
    clock w' = clock w /\
    forall path : string,
      exists rows : list text,
        contents path w' = (contents path w ++ rows)%list /\
        length rows = writers path loggers.
Proof.
  intros Hall. revert w. induction Hall as [|l ls Hl _ IH]; intros w.
  - exists w. split; [reflexivity|]. split; [reflexivity|].
    intros path. exists []. rewrite app_nil_r. split; reflexivity.
  - destruct Hl as [[p Hp] (samples & Hc & Hf & Hh)].
    cbn [log_all]. rewrite (log_data_floats l _ _ _ w Hc Hf Hh), Hp.
    set (r := Logger.row _ _ _ _ _).
    destruct (IH (write p r w)) as (w' & Hrun & Hclock & Hrows).
    exists w'. unfold bindM. rewrite Hrun. split; [reflexivity|].
    split; [rewrite Hclock; reflexivity|].
    intros path. destruct (Hrows path) as (rows & Hcont & Hlen).
    rewrite contents_write in Hcont. unfold writers in *.
    destruct (decide (p = path)) as [->|Hne].
    + exists (r :: rows). rewrite Hcont, <- app_assoc. split; [reflexivity|].
      rewrite filter_cons_True by exact Hp. cbn. rewrite Hlen. reflexivity.
    + exists rows. split; [exact Hcont|].
      rewrite filter_cons_False by congruence. exact Hlen.
Qed.

Lemma reading_loop_ready (samples readings : nat) (loggers : list Logger.t) (w : World) :
  Forall ready loggers ->
  exists (loggers' : list Logger.t) (w' : World),
    reading_loop samples readings loggers w = (Ok loggers', w') /\
    Forall ready loggers' /\
    clock w' = (clock w + readings * samples)%nat /\
    forall path : string,
      exists rows : list text,
        contents path w' = (contents path w ++ rows)%list /\
        length rows = (readings * writers path loggers)%nat.
Proof.
  revert loggers w. induction readings as [|n IH]; intros loggers w Hall.
  - exists loggers, w. split; [reflexivity|]. split; [exact Hall|]. split; [cbn; lia|].
    intros path. exists []. rewrite app_nil_r. split; reflexivity.
  - cbn [reading_loop].
    destruct (sample_loop_ticks (S n) samples loggers w) as (w1 & -> & Hf1 & Hc1).
    destruct (map_ticks_ready samples loggers Hall) as [Hready Hwriters].
    destruct (log_all_ready _ w1 Hready) as (w2 & Hlog & Hc2 & Hrows2).
    destruct (IH _ w2 Hready) as (loggers' & w3 & Hrun & Hready' & Hc3 & Hrows3).
    exists loggers', w3. unfold bindM. rewrite Hlog.
    split; [exact Hrun|]. split; [exact Hready'|]. split; [lia|].
    intros path. destruct (Hrows2 path) as (r2 & Hcont2 & Hlen2).
    destruct (Hrows3 path) as (r3 & Hcont3 & Hlen3).
    exists (r2 ++ r3)%list. split.
    + rewrite Hcont3, Hcont2, <- app_assoc. unfold contents. rewrite Hf1. reflexivity.
    + rewrite length_app, Hlen2, Hlen3, !Hwriters. lia.
Qed.



(** ** Whole runs *)

Lemma with_header_idem (c : list text) : with_header (with_header c) = with_header c.
Proof. destruct c; reflexivity. Qed.

(** The files after the construction loop: each log file of an accepted
    pin has its header if it had nothing, and nothing else changed. *)
Lemma construct_contents (prefix : string) (pins : list string) (vars : locals)
    (loggers : list Logger.t) (w : World) (path : string) :
  Forall (fun arg => is_integer arg = true) pins ->
  (forall p : string, openable w p = true) ->
  contents path (snd (construct prefix pins vars loggers w)) =
    if decide (path ∈ logs_of prefix pins) then with_header (contents path w)
    else contents path w.
Proof.
  intros Hall. revert vars loggers w.
  induction Hall as [|arg rest Harg _ IH]; intros vars loggers w Hopen.
  - cbn. rewrite decide_False by apply not_elem_of_nil. reflexivity.
  - destruct (accepted_is_integer arg Harg) as [[g Hacc]|[Hacc Hout]].
    + destruct (construct_accepted prefix arg g rest vars loggers w Hacc) as (s & _ & ->).
      destruct (logger_init_world s (log_of prefix g) w) as (_ & _ & _ & Hop & _).
      destruct (logger_init_contents s (log_of prefix g) path w (Hopen _)) as [_ Hc].
      rewrite IH by (intros p; rewrite Hop; apply Hopen). rewrite Hc.
      assert (Hlogs : logs_of prefix (arg :: rest) = log_of prefix g :: logs_of prefix rest).
      { unfold logs_of. cbn [omap list_omap]. rewrite Hacc. reflexivity. }
      rewrite Hlogs. fold (with_header (contents (log_of prefix g) w)).
      destruct (decide (path = log_of prefix g)) as [->|Hne].
      * rewrite (decide_True (P := _ ∈ _ :: _)) by apply list_elem_of_here.
        destruct (decide (log_of prefix g ∈ logs_of prefix rest));
          [apply with_header_idem|reflexivity].
      * destruct (decide (path ∈ logs_of prefix rest)) as [Hin|Hnin].
        -- rewrite decide_True by (apply list_elem_of_further; exact Hin). reflexivity.
        -- rewrite decide_False; [reflexivity|].
           intros [?|?]%elem_of_cons; contradiction.
    + cbn [construct]. rewrite (init_out_of_range _ _ Hout).
      rewrite IH by (intros p; apply Hopen).
      unfold logs_of. cbn [omap list_omap]. rewrite Hacc. reflexivity.
Qed.

Lemma writers_of_files (path : string) (loggers : list Logger.t) :
  Forall (fun l => Logger.f l = Some (Logger.datafile l)) loggers ->
  writers path loggers =
    length (filter (fun name => name = path) (Logger.datafile <$> loggers)).
Proof.
  unfold writers. induction 1 as [|l ls Hl _ IH]; [reflexivity|]. cbn [fmap list_fmap].
  destruct (decide (Logger.datafile l = path)) as [He|Hne].
  - rewrite !filter_cons_True by congruence. cbn. rewrite IH. reflexivity.
  - rewrite !filter_cons_False by congruence. exact IH.
Qed.

(** The run of [main] on pin arguments that are all integers, with every
    log file openable. *)
Lemma main_integers (prog prefix pin : string) (pins : list string) (w : World) :
  help_requested [prog; prefix] = false ->
  Forall (fun arg => is_integer arg = true) (pin :: pins) ->
  (forall p : string, openable w p = true) ->
  exists w' : World,
    main (prog :: prefix :: pin :: pins) w = (Ok 0, w') /\
    clock w' = (clock w + 50)%nat /\
    forall path : string,
      exists rows : list text,
        contents path w' =
          ((if decide (path ∈ logs_of prefix (pin :: pins))
            then with_header (contents path w) else contents path w) ++ rows)%list /\
        length rows =
          (5 * length (filter (fun name => name = path) (logs_of prefix (pin :: pins))))%nat.
Proof.
  intros Hhelp Hall Hopen. unfold main. rewrite main_with_pins by assumption.
  pose proof (fun path => construct_contents prefix (pin :: pins) unassigned [] w path Hall Hopen)
    as Hcont.
  destruct (construct_integers prefix (pin :: pins) unassigned [] w Hall)
    as (vars & news & w1 & Hrun & Hdata & _ & Hnews & _ & Hclock & _).
  rewrite Hrun in Hcont. cbn [snd] in Hcont.
  unfold bindM at 1. rewrite Hrun. cbn [app snd].
  assert (Hfiles : Forall (fun l => Logger.f l = Some (Logger.datafile l)) news).
  { eapply Forall_impl; [exact Hnews|]. intros l [_ Hf]. rewrite Hf, Hopen. reflexivity. }
  assert (Hready : Forall ready news).
  { eapply Forall_impl; [exact Hnews|]. intros l [Hh Hf]. split; [|eauto].
    rewrite Hf, Hopen. eauto. }
  destruct (reading_loop_ready 10 5 news w1 Hready) as (loggers' & w2 & Hloop & _ & Hc2 & Hrows).
  exists w2. unfold bindM. rewrite Hloop. split; [reflexivity|]. split; [lia|].
  intros path. destruct (Hrows path) as (rows & Hc & Hlen).
  exists rows. rewrite Hc, Hcont. split; [reflexivity|].
  rewrite Hlen, (writers_of_files path news Hfiles), Hdata. reflexivity.
Qed.

(** X11: when every pin argument is an integer that [int] converts (a
    literal of at most 4300 digits, in range or not) and the
    log files can be opened, a run of [main] returns 0 after fifty
    seconds of sleep, whatever the sensors answer or fail to answer: no
    read failure of the hardware ends the run. *)
Theorem main_runs_to_completion (prog prefix pin : string) (pins : list string)
    (w : World) :
  help_requested [prog; prefix] = false ->
  Forall (fun arg => is_integer arg = true) (pin :: pins) ->
  (forall p : string, openable w p = true) ->
  exists w' : World,
    main (prog :: prefix :: pin :: pins) w = (Ok 0, w') /\
    clock w' = (clock w + 50)%nat.
Proof.
  intros Hhelp Hall Hopen.
  destruct (main_integers prog prefix pin pins w Hhelp Hall Hopen) as (w' & Hrun & Hclock & _).
  exists w'. split; assumption.
Qed.

Lemma main_runs_to_completion_witness :
  exists w' : World,
    main ["humtemplogger.py"; "hive"; "4"; "99"; "17"] (bench cycle2 true) = (Ok 0, w') /\
    clock w' = 50%nat.
Proof.
  apply (main_runs_to_completion "humtemplogger.py" "hive" "4" ["99"; "17"]
           (bench cycle2 true)); [reflexivity|repeat constructor|reflexivity].
Defined.

Lemma filter_eq_NoDup (path : string) (names : list string) :
  NoDup names ->
  length (filter (fun name => name = path) names) =
    if decide (path ∈ names) then 1%nat else 0%nat.
Proof.
  induction 1 as [|name names Hnot _ IH].
  - rewrite decide_False by apply not_elem_of_nil. reflexivity.
  - destruct (decide (name = path)) as [->|Hne].
    + rewrite filter_cons_True by reflexivity. cbn. rewrite IH.
      rewrite decide_False by exact Hnot.
      rewrite decide_True by apply list_elem_of_here. reflexivity.
    + rewrite filter_cons_False by exact Hne. rewrite IH.
      destruct (decide (path ∈ names)) as [Hin|Hnin].
      * rewrite decide_True by (apply list_elem_of_further; exact Hin). reflexivity.
      * rewrite decide_False; [reflexivity|].
        intros [?|?]%elem_of_cons; [congruence|contradiction].
Qed.

Lemma logs_of_NoDup (prefix : string) (pins : list string) :
  NoDup (omap accepted pins) -> NoDup (logs_of prefix pins).
Proof.
  unfold logs_of. apply NoDup_fmap_2. intros a b. apply log_of_inj.
Qed.

(** X14: in a run of [main] on pin arguments that [int] converts, no pin
    number being accepted twice and every log file openable, every file
    ends up as follows.  The log file of an accepted pin gets the header
    first if it was missing or empty, and then exactly five rows, after
    what it held; every other file is unchanged. *)
Theorem main_log_files (prog prefix pin : string) (pins : list string) (w : World) :
  help_requested [prog; prefix] = false ->
  Forall (fun arg => is_integer arg = true) (pin :: pins) ->
  NoDup (omap accepted (pin :: pins)) ->
  (forall p : string, openable w p = true) ->
  forall path : string,
    if decide (path ∈ logs_of prefix (pin :: pins)) then
      exists rows : list text,
        contents path (snd (main (prog :: prefix :: pin :: pins) w)) =
          (with_header (contents path w) ++ rows)%list /\
        length rows = 5%nat
    else
      contents path (snd (main (prog :: prefix :: pin :: pins) w)) = contents path w.
Proof.
  intros Hhelp Hall Hdup Hopen path.
  destruct (main_integers prog prefix pin pins w Hhelp Hall Hopen) as (w' & Hrun & _ & Hrows).
  rewrite Hrun. cbn [snd]. destruct (Hrows path) as (rows & Hcont & Hlen).
  rewrite (filter_eq_NoDup path _ (logs_of_NoDup prefix _ Hdup)) in Hlen.
  destruct (decide (path ∈ logs_of prefix (pin :: pins))).
  - exists rows. split; [exact Hcont|]. rewrite Hlen. reflexivity.
  - destruct rows; [|discriminate]. rewrite app_nil_r in Hcont. exact Hcont.
Qed.

Lemma main_log_files_witness :
  exists rows : list text,
    contents "hive_board.D17.csv"
      (snd (main ["humtemplogger.py"; "hive"; "4"; "99"; "17"] (bench cycle2 true))) =
      (Logger.header :: rows) /\
    length rows = 5%nat.
Proof.
  exact (main_log_files "humtemplogger.py" "hive" "4" ["99"; "17"] (bench cycle2 true)
           eq_refl ltac:(repeat constructor)
           ltac:(refine (bool_decide_unpack _ _); vm_compute; exact I)
           (fun _ => eq_refl) "hive_board.D17.csv").
Defined.
